(** * A shallow embedding of the URL crawler [url-scan.go]

    The crawler is a single Go package: a [Crawler] that owns a work queue,
    a visited map guarded by a mutex, two scope lists and the channels that
    feed the output writers.  The repository holds two variants of the
    program: [url-scan.go], which writes two output files and scans script
    assets from [processURL], and a one-file variant, which
    scans script assets from [extractLinks] and writes one output file.

    Go strings are byte sequences; they are modelled by [string] (a list of
    [ascii] bytes).  The Go packages the program calls ([strings],
    [net/url], [regexp] on two fixed patterns) are modelled as executable
    functions; the network, the HTML parser and the file system are
    oracles of the environment. *)

From Stdlib Require Import ZArith Ascii String List Lia Bool.
From stdpp Require Import gmap strings list.

Local Open Scope string_scope.
Local Open Scope bool_scope.
Local Open Scope list_scope.
Set Warnings "-register-all".
#[local] Arguments String.append !s1 s2 : simpl nomatch.

(** ** Package [strings] *)

Module GoStrings.

(** [strings.HasPrefix]: [len(s) >= len(prefix) && s[:len(prefix)] == prefix]. *)
Fixpoint HasPrefix (s prefix : string) {struct prefix} : bool :=
  match prefix, s with
  | EmptyString, _ => true
  | String _ _, EmptyString => false
  | String p prefix', String c s' => Ascii.eqb c p && HasPrefix s' prefix'
  end.

(** [s[n:]], for [n <= len(s)]. *)
Fixpoint sliceFrom (n : nat) (s : string) : string :=
  match n, s with
  | O, _ => s
  | S n', String _ s' => sliceFrom n' s'
  | S _, EmptyString => EmptyString
  end.

(** [s[:n]], for [n <= len(s)]. *)
Fixpoint sliceTo (n : nat) (s : string) : string :=
  match n, s with
  | O, _ => EmptyString
  | S n', String c s' => String c (sliceTo n' s')
  | S _, EmptyString => EmptyString
  end.

(** [strings.HasSuffix]:
    [len(s) >= len(suffix) && s[len(s)-len(suffix):] == suffix]. *)
Definition HasSuffix (s suffix : string) : bool :=
  (String.length suffix <=? String.length s)%nat
  && String.eqb (sliceFrom (String.length s - String.length suffix) s) suffix.

(** [strings.Index]: the offset of the first occurrence of [sep], or
    [None] where Go returns [-1]. *)
Fixpoint Index (s sep : string) : option nat :=
  if HasPrefix s sep then Some O
  else match s with
       | EmptyString => None
       | String _ s' => option_map S (Index s' sep)
       end.

(** [strings.LastIndex]: the offset of the last occurrence of [sep]. *)
Fixpoint LastIndex (s sep : string) : option nat :=
  match s with
  | EmptyString => if HasPrefix s sep then Some O else None
  | String _ s' =>
      match LastIndex s' sep with
      | Some i => Some (S i)
      | None => if HasPrefix s sep then Some O else None
      end
  end.

(** [strings.Contains]. *)
Definition Contains (s substr : string) : bool :=
  match Index s substr with Some _ => true | None => false end.

(** [strings.Cut]: [(before, after, found)]. *)
Definition Cut (s sep : string) : string * string * bool :=
  match Index s sep with
  | Some i => (sliceTo i s, sliceFrom (i + String.length sep) s, true)
  | None => (s, EmptyString, false)
  end.

(** [strings.Count] of non-overlapping occurrences of a non-empty [sep]
    (for the empty separator Go counts runes; the program never asks). *)
Fixpoint CountFrom (fuel : nat) (s sep : string) : nat :=
  match fuel with
  | O => O
  | S fuel' =>
      match Index s sep with
      | Some i => S (CountFrom fuel' (sliceFrom (i + String.length sep) s) sep)
      | None => O
      end
  end.

Definition Count (s sep : string) : nat :=
  match sep with
  | EmptyString => S (String.length s)
  | _ => CountFrom (String.length s) s sep
  end.

(** The loop of [genSplit]: cut at each occurrence of [sep]; the last
    element is what remains. *)
Fixpoint genSplit (fuel : nat) (s sep : string) : list string :=
  match fuel with
  | O => [s]
  | S fuel' =>
      match Index s sep with
      | Some m => sliceTo m s :: genSplit fuel' (sliceFrom (m + String.length sep) s) sep
      | None => [s]
      end
  end.

(** For the empty separator [strings.Split] explodes the string into its
    UTF-8 sequences; on ASCII text those are the bytes. *)
Fixpoint explode (s : string) : list string :=
  match s with
  | EmptyString => []
  | String c s' => String c EmptyString :: explode s'
  end.

(** [strings.Split(s, sep)].  The program calls it with [","] and ["="]. *)
Definition Split (s sep : string) : list string :=
  match sep with
  | EmptyString => explode s
  | _ => genSplit (String.length s) s sep
  end.

Definition lower (c : ascii) : ascii :=
  let n := nat_of_ascii c in
  if (65 <=? n)%nat && (n <=? 90)%nat then ascii_of_nat (n + 32) else c.

(** [strings.ToLower] on the ASCII letters (all that a URL scheme holds). *)
Fixpoint ToLower (s : string) : string :=
  match s with
  | EmptyString => EmptyString
  | String c s' => String (lower c) (ToLower s')
  end.

End GoStrings.

Import GoStrings.

(** ** Package [net/url]

    The program calls [url.Parse], [URL.IsAbs], [URL.ResolveReference]
    and [URL.String]; [http.NewRequest] calls [url.Parse] as well.  The
    functions below follow the library's code function by function (the
    Go 1.2x sources: [getScheme], [parse], [parseAuthority], [parseHost],
    [unescape], [escape], [shouldEscape], [validEncoded], [setPath],
    [EscapedPath], [resolvePath], ...).  An error result is [None]. *)

Module NetURL.

Record Userinfo := mkUserinfo {
  username : string;
  password : string;
  passwordSet : bool
}.

Record URL := mkURL {
  Scheme : string;
  Opaque : string;
  User : option Userinfo;
  Host : string;
  Path : string;
  RawPath : string;
  OmitHost : bool;
  ForceQuery : bool;
  RawQuery : string;
  Fragment : string;
  RawFragment : string
}.

Inductive encoding :=
| encodePath | encodePathSegment | encodeHost | encodeZone
| encodeUserPassword | encodeQueryComponent | encodeFragment.

Definition encoding_eqb (a b : encoding) : bool :=
  match a, b with
  | encodePath, encodePath | encodePathSegment, encodePathSegment
  | encodeHost, encodeHost | encodeZone, encodeZone
  | encodeUserPassword, encodeUserPassword
  | encodeQueryComponent, encodeQueryComponent
  | encodeFragment, encodeFragment => true
  | _, _ => false
  end.

(** [lo <= c && c <= hi] on bytes. *)
Definition between (lo hi c : ascii) : bool :=
  (nat_of_ascii lo <=? nat_of_ascii c)%nat && (nat_of_ascii c <=? nat_of_ascii hi)%nat.

(** [c] is one of the bytes of [set] (a [switch c { case ... }]). *)
Fixpoint oneOf (c : ascii) (set : string) : bool :=
  match set with
  | EmptyString => false
  | String d set' => Ascii.eqb c d || oneOf c set'
  end.

Definition dquote : ascii := ascii_of_nat 34.

Definition isAlnum (c : ascii) : bool :=
  between "a" "z" c || between "A" "Z" c || between "0" "9" c.

Definition ishex (c : ascii) : bool :=
  between "0" "9" c || between "a" "f" c || between "A" "F" c.

Definition unhex (c : ascii) : nat :=
  if between "0" "9" c then nat_of_ascii c - 48
  else if between "a" "f" c then nat_of_ascii c - 97 + 10
  else if between "A" "F" c then nat_of_ascii c - 65 + 10
  else 0.

(** [shouldEscape(c, mode)]. *)
Definition shouldEscape (c : ascii) (mode : encoding) : bool :=
  if isAlnum c then false
  else if (encoding_eqb mode encodeHost || encoding_eqb mode encodeZone)
          && (oneOf c "!$&'()*+,;=:[]<>" || Ascii.eqb c dquote) then false
  else if oneOf c "-_.~" then false
  else if oneOf c "$&+,/:;=?@" then
    match mode with
    | encodePath => Ascii.eqb c "?"
    | encodePathSegment => oneOf c "/;,?"
    | encodeUserPassword => oneOf c "@/?:"
    | encodeQueryComponent => true
    | encodeFragment => false
    | encodeHost | encodeZone => true
    end
  else if encoding_eqb mode encodeFragment && oneOf c "!()*" then false
  else true.

(** The first loop of [unescape]: every [%] is followed by two hex
    digits, and host bytes are legal.  [true] when no error is found. *)
Fixpoint unescapeCheck (mode : encoding) (s : string) : bool :=
  match s with
  | EmptyString => true
  | String c rest =>
      if Ascii.eqb c "%" then
        match rest with
        | String h1 (String h2 rest') =>
            if ishex h1 && ishex h2 then
              let is25 := Ascii.eqb h1 "2" && Ascii.eqb h2 "5" in
              if encoding_eqb mode encodeHost && (unhex h1 <? 8)%nat && negb is25
              then false
              else if encoding_eqb mode encodeZone && negb is25
                      && negb (Ascii.eqb (ascii_of_nat (unhex h1 * 16 + unhex h2)) " ")
                      && shouldEscape (ascii_of_nat (unhex h1 * 16 + unhex h2)) encodeHost
              then false
              else unescapeCheck mode rest'
            else false
        | _ => false
        end
      else if Ascii.eqb c "+" then unescapeCheck mode rest
      else if (encoding_eqb mode encodeHost || encoding_eqb mode encodeZone)
              && (nat_of_ascii c <? 128)%nat && shouldEscape c encodeHost
      then false
      else unescapeCheck mode rest
  end.

(** The second loop of [unescape]: decode. *)
Fixpoint unescapeDecode (mode : encoding) (s : string) : string :=
  match s with
  | EmptyString => EmptyString
  | String c rest =>
      if Ascii.eqb c "%" then
        match rest with
        | String h1 (String h2 rest') =>
            String (ascii_of_nat (unhex h1 * 16 + unhex h2)) (unescapeDecode mode rest')
        | _ => EmptyString
        end
      else if Ascii.eqb c "+" then
        String (if encoding_eqb mode encodeQueryComponent then " " else "+")%char
               (unescapeDecode mode rest)
      else String c (unescapeDecode mode rest)
  end.

Definition unescape (s : string) (mode : encoding) : option string :=
  if unescapeCheck mode s then Some (unescapeDecode mode s) else None.

Definition upperhex (n : nat) : ascii :=
  match String.get n "0123456789ABCDEF" with Some c => c | None => "0"%char end.

(** [escape(s, mode)]. *)
Fixpoint escape (s : string) (mode : encoding) : string :=
  match s with
  | EmptyString => EmptyString
  | String c rest =>
      if shouldEscape c mode then
        if Ascii.eqb c " " && encoding_eqb mode encodeQueryComponent
        then String "+" (escape rest mode)
        else String "%" (String (upperhex (nat_of_ascii c / 16))
               (String (upperhex (nat_of_ascii c mod 16)) (escape rest mode)))
      else String c (escape rest mode)
  end.

(** [validEncoded(s, mode)]. *)
Fixpoint validEncoded (s : string) (mode : encoding) : bool :=
  match s with
  | EmptyString => true
  | String c rest =>
      (if oneOf c "!$&'()*+,;=:@" then true
       else if oneOf c "[]" then true
       else if Ascii.eqb c "%" then true
       else negb (shouldEscape c mode))
      && validEncoded rest mode
  end.

Definition isEmpty (s : string) : bool :=
  match s with EmptyString => true | _ => false end.

(** [URL.setPath]: [None] when [unescape] fails. *)
Definition setPath (u : URL) (p : string) : option URL :=
  match unescape p encodePath with
  | None => None
  | Some path =>
      Some (mkURL (Scheme u) (Opaque u) (User u) (Host u) path
              (if String.eqb p (escape path encodePath) then "" else p)
              (OmitHost u) (ForceQuery u) (RawQuery u) (Fragment u) (RawFragment u))
  end.

(** [URL.EscapedPath]. *)
Definition EscapedPath (u : URL) : string :=
  if negb (isEmpty (RawPath u)) && validEncoded (RawPath u) encodePath
     && match unescape (RawPath u) encodePath with
        | Some p => String.eqb p (Path u)
        | None => false
        end
  then RawPath u
  else if String.eqb (Path u) "*" then "*"
  else escape (Path u) encodePath.

(** [URL.setFragment]. *)
Definition setFragment (u : URL) (f : string) : option URL :=
  match unescape f encodeFragment with
  | None => None
  | Some frag =>
      Some (mkURL (Scheme u) (Opaque u) (User u) (Host u) (Path u) (RawPath u)
              (OmitHost u) (ForceQuery u) (RawQuery u) frag
              (if String.eqb f (escape frag encodeFragment) then "" else f))
  end.

(** [URL.EscapedFragment]. *)
Definition EscapedFragment (u : URL) : string :=
  if negb (isEmpty (RawFragment u)) && validEncoded (RawFragment u) encodeFragment
     && match unescape (RawFragment u) encodeFragment with
        | Some f => String.eqb f (Fragment u)
        | None => false
        end
  then RawFragment u
  else escape (Fragment u) encodeFragment.

(** [stringContainsCTLByte]. *)
Fixpoint stringContainsCTLByte (s : string) : bool :=
  match s with
  | EmptyString => false
  | String b rest =>
      (nat_of_ascii b <? 32)%nat || (nat_of_ascii b =? 127)%nat
      || stringContainsCTLByte rest
  end.

(** The loop of [getScheme] from index [i]; [whole] is [rawURL] and
    [s = rawURL[i:]].  The result is [Some (scheme, rest)], or [None] for
    the error "missing protocol scheme". *)
Fixpoint getSchemeFrom (whole : string) (i : nat) (s : string) : option (string * string) :=
  match s with
  | EmptyString => Some (EmptyString, whole)
  | String c rest =>
      if between "a" "z" c || between "A" "Z" c then getSchemeFrom whole (S i) rest
      else if between "0" "9" c || oneOf c "+-." then
        match i with
        | O => Some (EmptyString, whole)
        | _ => getSchemeFrom whole (S i) rest
        end
      else if Ascii.eqb c ":" then
        match i with
        | O => None
        | _ => Some (sliceTo i whole, rest)
        end
      else Some (EmptyString, whole)
  end.

Definition getScheme (rawURL : string) : option (string * string) :=
  getSchemeFrom rawURL 0 rawURL.

(** [validOptionalPort]. *)
Fixpoint allDigits (s : string) : bool :=
  match s with
  | EmptyString => true
  | String b rest => between "0" "9" b && allDigits rest
  end.

Definition validOptionalPort (port : string) : bool :=
  match port with
  | EmptyString => true
  | String c rest => Ascii.eqb c ":" && allDigits rest
  end.

(** [validUserinfo]. *)
Fixpoint validUserinfo (s : string) : bool :=
  match s with
  | EmptyString => true
  | String r rest =>
      (isAlnum r || oneOf r "-._:~!$&'()*+,;=%@") && validUserinfo rest
  end.

(** [parseHost]. *)
Definition parseHost (host : string) : option string :=
  if HasPrefix host "[" then
    match LastIndex host "]" with
    | None => None
    | Some i =>
        if negb (validOptionalPort (sliceFrom (S i) host)) then None
        else
          match Index (sliceTo i host) "%25" with
          | Some zone =>
              match unescape (sliceTo zone host) encodeHost,
                    unescape (sliceFrom zone (sliceTo i host)) encodeZone,
                    unescape (sliceFrom i host) encodeHost with
              | Some host1, Some host2, Some host3 => Some (host1 +:+ host2 +:+ host3)
              | _, _, _ => None
              end
          | None => unescape host encodeHost
          end
    end
  else
    match LastIndex host ":" with
    | Some i =>
        if negb (validOptionalPort (sliceFrom i host)) then None
        else unescape host encodeHost
    | None => unescape host encodeHost
    end.

(** [parseAuthority]: [(user, host)]. *)
Definition parseAuthority (authority : string) : option (option Userinfo * string) :=
  match LastIndex authority "@" with
  | None =>
      match parseHost authority with
      | None => None
      | Some host => Some (None, host)
      end
  | Some i =>
      match parseHost (sliceFrom (S i) authority) with
      | None => None
      | Some host =>
          let userinfo := sliceTo i authority in
          if negb (validUserinfo userinfo) then None
          else if negb (Contains userinfo ":") then
            match unescape userinfo encodeUserPassword with
            | None => None
            | Some name => Some (Some (mkUserinfo name "" false), host)
            end
          else
            let '(name, pass, _) := Cut userinfo ":" in
            match unescape name encodeUserPassword, unescape pass encodeUserPassword with
            | Some name', Some pass' => Some (Some (mkUserinfo name' pass' true), host)
            | _, _ => None
            end
      end
  end.

(** The split of the query in [parse]: [(rest, ForceQuery, RawQuery)]. *)
Definition splitQuery (rest0 : string) : string * bool * string :=
  if HasSuffix rest0 "?" && (Count rest0 "?" =? 1)%nat
  then (sliceTo (String.length rest0 - 1) rest0, true, EmptyString)
  else let '(r, q, _) := Cut rest0 "?" in (r, false, q).

(** [parse] once the scheme and the query are split off: the opaque form,
    the authority, the path. *)
Definition parseHier (scheme rest : string) (forceQuery : bool) (rawQuery : string)
  : option URL :=
  if negb (HasPrefix rest "/") && negb (isEmpty scheme) then
    Some (mkURL scheme rest None "" "" "" false forceQuery rawQuery "" "")
  else if negb (HasPrefix rest "/")
          && (let '(segment, _, _) := Cut rest "/" in Contains segment ":")
  then None
  else if (negb (isEmpty scheme) || negb (HasPrefix rest "///"))
          && HasPrefix rest "//" then
    let authority0 := sliceFrom 2 rest in
    let '(authority, rest') :=
      match Index authority0 "/" with
      | Some i => (sliceTo i authority0, sliceFrom i authority0)
      | None => (authority0, EmptyString)
      end in
    match parseAuthority authority with
    | None => None
    | Some (user, host) =>
        setPath (mkURL scheme "" user host "" "" false forceQuery rawQuery "" "") rest'
    end
  else
    setPath (mkURL scheme "" None "" "" ""
               (negb (isEmpty scheme) && HasPrefix rest "/")
               forceQuery rawQuery "" "") rest.

(** [parse(rawURL, viaRequest = false)]. *)
Definition parse (rawURL : string) : option URL :=
  if stringContainsCTLByte rawURL then None
  else if String.eqb rawURL "*" then
    Some (mkURL "" "" None "" "*" "" false false "" "" "")
  else
    match getScheme rawURL with
    | None => None
    | Some (scheme0, rest0) =>
        let '(rest, forceQuery, rawQuery) := splitQuery rest0 in
        parseHier (ToLower scheme0) rest forceQuery rawQuery
    end.

(** [url.Parse]. *)
Definition Parse (rawURL : string) : option URL :=
  let '(u, frag, _) := Cut rawURL "#" in
  match parse u with
  | None => None
  | Some url =>
      if isEmpty frag then Some url
      else setFragment url frag
  end.

(** [URL.IsAbs]. *)
Definition IsAbs (u : URL) : bool := negb (isEmpty (Scheme u)).

(** [Userinfo.String]. *)
Definition Userinfo_String (u : Userinfo) : string :=
  escape (username u) encodeUserPassword
  +:+ (if passwordSet u then ":" +:+ escape (password u) encodeUserPassword else "").

Definition isSome {A} (o : option A) : bool :=
  match o with Some _ => true | None => false end.

(** [URL.String]. *)
Definition String_ (u : URL) : string :=
  let buf0 := if negb (isEmpty (Scheme u)) then Scheme u +:+ ":" else "" in
  let buf1 :=
    if negb (isEmpty (Opaque u)) then buf0 +:+ Opaque u
    else
      let buf :=
        if negb (isEmpty (Scheme u)) || negb (isEmpty (Host u)) || isSome (User u) then
          if OmitHost u && isEmpty (Host u) && negb (isSome (User u)) then buf0
          else
            buf0
            +:+ (if negb (isEmpty (Host u)) || negb (isEmpty (Path u)) || isSome (User u)
                 then "//" else "")
            +:+ (match User u with Some ui => Userinfo_String ui +:+ "@" | None => "" end)
            +:+ (if negb (isEmpty (Host u)) then escape (Host u) encodeHost else "")
        else buf0 in
      let path := EscapedPath u in
      let buf' :=
        if negb (isEmpty path) && negb (HasPrefix path "/") && negb (isEmpty (Host u))
        then buf +:+ "/" else buf in
      let buf'' :=
        if isEmpty buf'
           && (let '(segment, _, _) := Cut path "/" in Contains segment ":")
        then buf' +:+ "./" else buf' in
      buf'' +:+ path in
  let buf2 :=
    if ForceQuery u || negb (isEmpty (RawQuery u)) then buf1 +:+ "?" +:+ RawQuery u
    else buf1 in
  if negb (isEmpty (Fragment u)) then buf2 +:+ "#" +:+ EscapedFragment u else buf2.

(** The loop of [resolvePath]: [dst] is the builder, [first] the flag;
    the result is the builder and the last element cut. *)
Fixpoint resolveLoop (fuel : nat) (remaining dst : string) (first : bool) : string * string :=
  match fuel with
  | O => (dst, EmptyString)
  | S fuel' =>
      let '(elem, remaining', found) := Cut remaining "/" in
      let '(dst', first') :=
        if String.eqb elem "." then (dst, false)
        else if String.eqb elem ".." then
          let str := sliceFrom 1 dst in
          match LastIndex str "/" with
          | None => ("/", true)
          | Some index => ("/" +:+ sliceTo index str, first)
          end
        else ((if first then dst else dst +:+ "/") +:+ elem, false) in
      if found then resolveLoop fuel' remaining' dst' first'
      else (dst', elem)
  end.

(** [resolvePath(base, ref)]. *)
Definition resolvePath (base ref : string) : string :=
  let full :=
    if isEmpty ref then base
    else if negb (HasPrefix ref "/") then
      match LastIndex base "/" with
      | Some i => sliceTo (S i) base +:+ ref
      | None => ref
      end
    else ref in
  if isEmpty full then EmptyString
  else
    let '(dst, elem) := resolveLoop (S (String.length full)) full "/" true in
    let r := if String.eqb elem "." || String.eqb elem ".." then dst +:+ "/" else dst in
    if (1 <? String.length r)%nat && HasPrefix (sliceFrom 1 r) "/" then sliceFrom 1 r else r.

(** [url.setPath(p)] with the error dropped, as [ResolveReference] calls it. *)
Definition setPath_ (u : URL) (p : string) : URL :=
  match setPath u p with Some u' => u' | None => u end.

(** [URL.ResolveReference]. *)
Definition ResolveReference (u ref : URL) : URL :=
  let url :=
    if isEmpty (Scheme ref)
    then mkURL (Scheme u) (Opaque ref) (User ref) (Host ref) (Path ref) (RawPath ref)
           (OmitHost ref) (ForceQuery ref) (RawQuery ref) (Fragment ref) (RawFragment ref)
    else ref in
  if negb (isEmpty (Scheme ref)) || negb (isEmpty (Host ref)) || isSome (User ref) then
    setPath_ url (resolvePath (EscapedPath ref) "")
  else if negb (isEmpty (Opaque ref)) then
    mkURL (Scheme url) (Opaque url) None "" "" (RawPath url)
      (OmitHost url) (ForceQuery url) (RawQuery url) (Fragment url) (RawFragment url)
  else
    let url1 :=
      if isEmpty (Path ref) && negb (ForceQuery ref) && isEmpty (RawQuery ref) then
        mkURL (Scheme url) (Opaque url) (User url) (Host url) (Path url) (RawPath url)
          (OmitHost url) (ForceQuery url) (RawQuery u)
          (if isEmpty (Fragment ref) then Fragment u else Fragment url)
          (if isEmpty (Fragment ref) then RawFragment u else RawFragment url)
      else url in
    if isEmpty (Path ref) && negb (isEmpty (Opaque u)) then
      mkURL (Scheme url1) (Opaque u) None "" "" (RawPath url1)
        (OmitHost url1) (ForceQuery url1) (RawQuery url1) (Fragment url1) (RawFragment url1)
    else
      setPath_
        (mkURL (Scheme url1) (Opaque url1) (User u) (Host u) (Path url1) (RawPath url1)
           (OmitHost url1) (ForceQuery url1) (RawQuery url1) (Fragment url1) (RawFragment url1))
        (resolvePath (EscapedPath u) (EscapedPath ref)).

End NetURL.


(** ** Package [regexp], on the program's two patterns *)

Module Regexp.

(** The class [\s] of RE2: tab, line feed, form feed, carriage return, space. *)
Definition isSpace (c : ascii) : bool :=
  let n := nat_of_ascii c in
  (n =? 9)%nat || (n =? 10)%nat || (n =? 12)%nat || (n =? 13)%nat || (n =? 32)%nat.

(** The negated class of the pattern: any byte that is neither in [\s]
    nor a double or a single quote. *)
Definition urlByte (c : ascii) : bool :=
  negb (isSpace c || Ascii.eqb c NetURL.dquote || Ascii.eqb c "'").

(** The longest prefix of [s] made of [urlByte]s (the greedy [+]). *)
Fixpoint run (s : string) : string :=
  match s with
  | EmptyString => EmptyString
  | String c s' => if urlByte c then String c (run s') else EmptyString
  end.

(** A match of the script pattern ([http], an optional [s], [://], then
    one or more bytes of the class) that starts at the first byte of [s]. *)
Definition matchAt (s : string) : option string :=
  let try (p : string) :=
    if HasPrefix s p then
      match run (sliceFrom (String.length p) s) with
      | EmptyString => None
      | r => Some (p +:+ r)
      end
    else None in
  match try "https://" with
  | Some m => Some m
  | None => try "http://"
  end.

(** The leftmost matches, left to right, without overlap; [skip] counts
    the bytes of the current match still to pass. *)
Fixpoint findAllFrom (skip : nat) (s : string) : list string :=
  match s with
  | EmptyString => []
  | String _ s' =>
      match skip with
      | S k => findAllFrom k s'
      | O =>
          match matchAt s with
          | Some m => m :: findAllFrom (String.length m - 1) s'
          | None => findAllFrom 0 s'
          end
      end
  end.

(** [urlRegex.FindAllString(body, -1)] for the script pattern. *)
Definition FindAllString (body : string) : list string := findAllFrom 0 body.

(** [regexp.MatchString] for the pattern [^https?://]. *)
Definition MatchString (u : string) : bool :=
  HasPrefix u "http://" || HasPrefix u "https://".

End Regexp.

(** ** Package [golang.org/x/net/html]: the parsed tree *)

Module Html.

Inductive NodeType :=
| ErrorNode | TextNode | DocumentNode | ElementNode
| CommentNode | DoctypeNode | RawNode.

Record Attribute := mkAttr {
  Namespace : string;
  Key : string;
  Val : string
}.

(** A node with its children in sibling order ([FirstChild], then
    [NextSibling] until [nil]). *)
Inductive Node :=
| mkNode (type : NodeType) (data : string) (attr : list Attribute) (children : list Node).

Definition Type_ (n : Node) : NodeType := let 'mkNode t _ _ _ := n in t.
Definition Data (n : Node) : string := let 'mkNode _ d _ _ := n in d.
Definition Attr (n : Node) : list Attribute := let 'mkNode _ _ a _ := n in a.
Definition Children (n : Node) : list Node := let 'mkNode _ _ _ c := n in c.

Definition isElement (t : NodeType) : bool :=
  match t with ElementNode => true | _ => false end.

End Html.

(** ** Package [net/http]: requests, responses, and the environment *)

Record Request := mkRequest {
  req_URL : NetURL.URL;
  req_UserAgent : string
}.

(** A response: its status code, and its body ([None] when reading the
    body fails). *)
Record Response := mkResponse {
  StatusCode : Z;
  Body : option string
}.

(** The pair [(resp, err)] of [client.Do] and of [fetchURL]: either a nil
    response with an error, or a response with a nil error. *)
Inductive HTTPResult :=
| Err
| Resp (resp : Response).

Definition StatusOK : Z := 200.

(** What the program does not own.  [client_Do past req] is the outcome of
    [client.Do(req)] after the requests [past] were made; [html_Parse] is
    [html.Parse] on a body that was read; [os_Create path] tells whether
    [os.Create] succeeds; [os_Write path content data] is the number of
    bytes of [data] that [WriteString] appends to the file [path] holding
    [content] (an error is returned when it is less than [len(data)]). *)
Class Environment := {
  client_Do : list Request -> Request -> HTTPResult;
  html_Parse : string -> option Html.Node;
  os_Create : string -> bool;
  os_Write : string -> string -> string -> nat
}.

(** [removeEmptyPort] of [net/http], applied by [http.NewRequest]. *)
Definition removeEmptyPort (host : string) : string :=
  let gt (a b : option nat) :=
    match a, b with
    | Some i, Some j => (j <? i)%nat
    | Some _, None => true
    | None, _ => false
    end in
  if gt (LastIndex host ":") (LastIndex host "]") && HasSuffix host ":"
  then sliceTo (String.length host - 1) host
  else host.

Definition withHost (u : NetURL.URL) (h : string) : NetURL.URL :=
  NetURL.mkURL (NetURL.Scheme u) (NetURL.Opaque u) (NetURL.User u) h (NetURL.Path u)
    (NetURL.RawPath u) (NetURL.OmitHost u) (NetURL.ForceQuery u) (NetURL.RawQuery u)
    (NetURL.Fragment u) (NetURL.RawFragment u).

Definition withScheme (u : NetURL.URL) (s : string) : NetURL.URL :=
  NetURL.mkURL s (NetURL.Opaque u) (NetURL.User u) (NetURL.Host u) (NetURL.Path u)
    (NetURL.RawPath u) (NetURL.OmitHost u) (NetURL.ForceQuery u) (NetURL.RawQuery u)
    (NetURL.Fragment u) (NetURL.RawFragment u).

(** [http.NewRequest("GET", pageURL, nil)]: fails exactly when [url.Parse]
    does. *)
Definition NewRequest (pageURL : string) : option Request :=
  match NetURL.Parse pageURL with
  | None => None
  | Some u => Some (mkRequest (withHost u (removeEmptyPort (NetURL.Host u))) "")
  end.

Definition userAgent : string :=
  "Mozilla/5.0 (Windows NT 10.0; Win64; x64) AppleWebKit/537.36 (KHTML, like Gecko) Chrome/58.0.3029.110 Safari/537.3".

Definition nl : string := String (ascii_of_nat 10) EmptyString.

(** ** The crawler *)

(** The struct [Crawler].  [Queue] holds the values sent on the channel
    and not yet received, oldest first (the capacity of 100 is not
    modelled: a send never blocks); [WG] is the counter of the wait group.
    The mutex is a step of the interleaving model below. *)
Record Crawler := mkCrawler {
  Queue : list string;
  Visited : gmap string bool;
  WG : Z;
  InScope : list string;
  OutScope : list string
}.

(** [NewCrawler]. *)
Definition NewCrawler (inscope outscope : list string) : Crawler :=
  mkCrawler [] ∅ 0 inscope outscope.

(** The crawler together with what it has done to the world so far: the
    values sent on [inScopeCh] and [outScopeCh] and, in the one-file
    variant, on [c.OutputCh] (oldest first), the requests handed to
    [client.Do], and the URLs for which [processURL] went on to fetch the
    page. *)
Record World := mkWorld {
  cr : Crawler;
  inScopeCh : list string;
  outScopeCh : list string;
  OutputCh : list string;
  net : list Request;
  pages : list string
}.

(** [c.Visited[u]]: a missing key reads as [false]. *)
Definition visited (c : Crawler) (u : string) : bool :=
  default false (Visited c !! u).

Definition setVisited (u : string) (w : World) : World :=
  let c := cr w in
  mkWorld (mkCrawler (Queue c) (<[u := true]> (Visited c)) (WG c) (InScope c) (OutScope c))
    (inScopeCh w) (outScopeCh w) (OutputCh w) (net w) (pages w).

(** [c.Queue <- u]. *)
Definition enqueue (u : string) (w : World) : World :=
  let c := cr w in
  mkWorld (mkCrawler (Queue c ++ [u]) (Visited c) (WG c) (InScope c) (OutScope c))
    (inScopeCh w) (outScopeCh w) (OutputCh w) (net w) (pages w).

(** [c.WG.Add(n)]; [c.WG.Done()] is [wgAdd (-1)]. *)
Definition wgAdd (n : Z) (w : World) : World :=
  let c := cr w in
  mkWorld (mkCrawler (Queue c) (Visited c) (WG c + n) (InScope c) (OutScope c))
    (inScopeCh w) (outScopeCh w) (OutputCh w) (net w) (pages w).

Definition setQueue (q : list string) (w : World) : World :=
  let c := cr w in
  mkWorld (mkCrawler q (Visited c) (WG c) (InScope c) (OutScope c))
    (inScopeCh w) (outScopeCh w) (OutputCh w) (net w) (pages w).

(** [inScopeCh <- line] and [outScopeCh <- line]. *)
Definition sendIn (line : string) (w : World) : World :=
  mkWorld (cr w) (inScopeCh w ++ [line]) (outScopeCh w) (OutputCh w) (net w) (pages w).

Definition sendOut (line : string) (w : World) : World :=
  mkWorld (cr w) (inScopeCh w) (outScopeCh w ++ [line]) (OutputCh w) (net w) (pages w).

(** [c.OutputCh <- line]. *)
Definition sendOutput (line : string) (w : World) : World :=
  mkWorld (cr w) (inScopeCh w) (outScopeCh w) (OutputCh w ++ [line]) (net w) (pages w).

Definition logPage (u : string) (w : World) : World :=
  mkWorld (cr w) (inScopeCh w) (outScopeCh w) (OutputCh w) (net w) (pages w ++ [u]).

(** [client.Do(req)]: ask the environment, and record the request. *)
Definition Do `{Environment} (req : Request) (w : World) : HTTPResult * World :=
  (client_Do (net w) req,
   mkWorld (cr w) (inScopeCh w) (outScopeCh w) (OutputCh w) (net w ++ [req]) (pages w)).

(** [isValidURL]. *)
Definition isValidURL (u : string) : bool := Regexp.MatchString u.

(** [isInScope]. *)
Definition isInScope (c : Crawler) (u : string) : bool :=
  match NetURL.Parse u with
  | None => false
  | Some parsedURL =>
      if existsb (fun scope => HasSuffix (NetURL.Host parsedURL) scope) (InScope c) then true
      else if existsb (fun scope => HasSuffix (NetURL.Host parsedURL) scope) (OutScope c) then false
      else (List.length (InScope c) =? 0)%nat
  end.

Definition codeExtensions : list string :=
  [".js"; ".jsp"; ".xml"; ".html"; ".htm"; ".php"; ".asp"; ".aspx"; ".css"; ".json";
   ".txt"; ".md"; ".yaml"; ".csv"; ".doc"; ".docx"; ".pdf"; ".ppt"; ".pptx"; ".xls";
   ".xlsx"; ".ts"; ".py"; ".rb"; ".java"; ".c"; ".h"; ".cs"; ".swift"; ".kt";
   ".pl"; ".sh"; ".bat"; ".go"].

(** [isCodeFile]. *)
Definition isCodeFile (u : string) : bool :=
  existsb (fun ext => HasSuffix u ext) codeExtensions.

(** [formatURL]. *)
Definition formatURL (base href : string) : string :=
  match NetURL.Parse href with
  | None => href
  | Some u =>
      if NetURL.IsAbs u then href
      else
        match NetURL.Parse base with
        | None => href
        | Some baseURL => NetURL.String_ (NetURL.ResolveReference baseURL u)
        end
  end.

Definition inList (s : string) (l : list string) : bool :=
  existsb (String.eqb s) l.

(** The [switch n.Data] of [extractLinks]: the candidates of one element,
    in attribute order. *)
Definition elementLinks (base : string) (data : string) (attr : list Html.Attribute)
  : list string :=
  let collect (keep : Html.Attribute -> bool) (value : Html.Attribute -> string) :=
    map (fun a => formatURL base (value a)) (List.filter keep attr) in
  if inList data ["a"; "link"; "img"; "iframe"; "frame"; "embed"; "script"; "source";
                  "track"; "video"; "audio"; "applet"; "object"; "area"; "base";
                  "input"; "form"]
  then collect (fun a => inList (Html.Key a) ["href"; "src"; "data"; "action"]) Html.Val
  else if String.eqb data "meta"
  then collect (fun a => String.eqb (Html.Key a) "content"
                         && (Contains (Html.Val a) "url=" || Contains (Html.Val a) "URL="))
               (fun a => nth 1 (Split (Html.Val a) "=") EmptyString)
  else if String.eqb data "button"
  then collect (fun a => String.eqb (Html.Key a) "formaction") Html.Val
  else if inList data ["blockquote"; "del"; "ins"; "q"]
  then collect (fun a => String.eqb (Html.Key a) "cite") Html.Val
  else if String.eqb data "command"
  then collect (fun a => String.eqb (Html.Key a) "icon") Html.Val
  else if String.eqb data "data"
  then collect (fun a => String.eqb (Html.Key a) "value") Html.Val
  else [].

(** [extractLinks] of [url-scan.go]: the links of the node, then those of
    its children, in order. *)
Fixpoint extractLinks (base : string) (n : Html.Node) : list string :=
  match n with
  | Html.mkNode type data attr children =>
      (if Html.isElement type then elementLinks base data attr else [])
      ++ (fix ofChildren (l : list Html.Node) : list string :=
            match l with
            | [] => []
            | child :: l' => extractLinks base child ++ ofChildren l'
            end) children
  end.

(** The caller's test [err != nil || resp.StatusCode != http.StatusOK]. *)
Definition fetchFailed (r : HTTPResult) : bool :=
  match r with
  | Err => true
  | Resp resp => negb (StatusCode resp =? StatusOK)%Z
  end.

(** The scheme of the retry: [https] for [http], [http] for everything else. *)
Definition flipScheme (scheme : string) : string :=
  if String.eqb scheme "http" then "https" else "http".

(** [fetchURL]. *)
Definition fetchURL `{Environment} (pageURL : string) (w : World) : HTTPResult * World :=
  match NewRequest pageURL, NetURL.Parse pageURL with
  | Some req0, Some u =>
      let req := mkRequest (req_URL req0) userAgent in
      let '(r, w1) := Do req w in
      if negb (fetchFailed r) then (r, w1)
      else Do (mkRequest (withScheme u (flipScheme (NetURL.Scheme u))) userAgent) w1
  | _, _ => (Err, w)
  end.

(** The loop of [extractURLsFromScript] over the URLs found in the body. *)
Fixpoint emitScriptURLs (urls : list string) (w : World) : World :=
  match urls with
  | [] => w
  | u :: urls' =>
      emitScriptURLs urls'
        (if isInScope (cr w) u then sendIn ("In-scope: " +:+ u) w
         else sendOut ("Out-Of-Scope: " +:+ u) w)
  end.

(** [extractURLsFromScript] of [url-scan.go]. *)
Definition extractURLsFromScript `{Environment} (scriptURL : string) (w : World) : World :=
  let '(r, w1) := fetchURL scriptURL w in
  if fetchFailed r then w1
  else
    match r with
    | Resp (mkResponse _ (Some body)) => emitScriptURLs (Regexp.FindAllString body) w1
    | _ => w1
    end.

(** The body of the loop [for _, u := range urls] of [processURL]. *)
Definition processLink `{Environment} (u : string) (w : World) : World :=
  let w1 :=
    if isValidURL u then
      if isInScope (cr w) u
      then wgAdd 1 (enqueue u (sendIn ("In-scope: " +:+ u) w))
      else sendOut ("Out-Of-Scope: " +:+ u) w
    else w in
  if isCodeFile u then extractURLsFromScript u w1 else w1.

Definition processLinks `{Environment} (urls : list string) (w : World) : World :=
  fold_left (fun w u => processLink u w) urls w.

(** [processURL] of [url-scan.go].  The test and the update of [Visited]
    run with the mutex held. *)
Definition processURL `{Environment} (pageURL : string) (w : World) : World :=
  if visited (cr w) pageURL then w
  else
    let w1 := logPage pageURL (setVisited pageURL w) in
    let '(r, w2) := fetchURL pageURL w1 in
    if fetchFailed r then w2
    else
      match r with
      | Resp (mkResponse _ (Some body)) =>
          match html_Parse body with
          | None => w2
          | Some doc => processLinks (extractLinks pageURL doc) w2
          end
      | _ => w2
      end.

(** [worker], for a single worker: receive from the queue, process, mark
    the item done; [fuel] bounds the number of items received. *)
Fixpoint worker `{Environment} (fuel : nat) (w : World) : World :=
  match fuel with
  | O => w
  | S fuel' =>
      match Queue (cr w) with
      | [] => w
      | url :: q => worker fuel' (wgAdd (-1) (processURL url (setQueue q w)))
      end
  end.

(** The file system is a map from the path of each file that exists to
    its content. *)

(** [file.WriteString(data)]: the environment decides how much is written. *)
Definition WriteString `{Environment} (path data : string) (fs : gmap string string)
  : gmap string string :=
  match fs !! path with
  | None => fs
  | Some content => <[path := content +:+ sliceTo (os_Write path content data) data]> fs
  end.

(** One writer goroutine of [writeToFiles]: [for u := range ch]. *)
Definition writerLoop `{Environment} (path : string) (received : list string)
    (fs : gmap string string) : gmap string string :=
  fold_left (fun fs u => WriteString path (u +:+ nl) fs) received fs.

(** [writeToFiles], given all that was sent on the two channels before
    they were closed.  [None] is [log.Fatalf].  The two writer goroutines
    write to different files, so the content of each file depends on its
    own channel only. *)
Definition writeToFiles `{Environment} (inScopeFile outScopeFile : string)
    (ins outs : list string) (fs : gmap string string) : option (gmap string string) :=
  if negb (os_Create inScopeFile) then None
  else
    let fs1 := <[inScopeFile := EmptyString]> fs in
    if negb (os_Create outScopeFile) then None
    else
      let fs2 := <[outScopeFile := EmptyString]> fs1 in
      let fs3 := WriteString inScopeFile ("--IN SCOPE URLS:---" +:+ nl) fs2 in
      let fs4 := WriteString outScopeFile ("--OUT OF SCOPE URLS:---" +:+ nl) fs3 in
      Some (writerLoop outScopeFile outs (writerLoop inScopeFile ins fs4)).

(** [Crawl], with one worker that receives at most [fuel] items: the final
    world and the files written, or [None] when the files cannot be
    created.  The writers are run to the end of their channels: the
    result is the disk once both writer loops are over. *)
Definition Crawl `{Environment} (c : Crawler) (startURL outputFile : string) (fuel : nat)
    (fs : gmap string string) : option (World * gmap string string) :=
  let w0 := wgAdd 1 (enqueue startURL (mkWorld c [] [] [] [] [])) in
  let w := worker fuel w0 in
  match writeToFiles (outputFile +:+ "_in_scope.txt") (outputFile +:+ "_out_scope.txt")
          (inScopeCh w) (outScopeCh w) fs with
  | None => None
  | Some fs' => Some (w, fs')
  end.

(** [main]: the scope lists come from the flags through [strings.Split]. *)
Definition main_crawler (inscopeFlag outscopeFlag : string) : Crawler :=
  NewCrawler (Split inscopeFlag ",") (Split outscopeFlag ",").

(** [main]: without a start URL the program stops at [log.Fatal]
    ([None]); otherwise it crawls from the URL with the lists of the flags. *)
Definition main `{Environment} (urlFlag outputFlag inscopeFlag outscopeFlag : string)
    (fuel : nat) (fs : gmap string string) : option (World * gmap string string) :=
  if NetURL.isEmpty urlFlag then None
  else Crawl (main_crawler inscopeFlag outscopeFlag) urlFlag outputFlag fuel fs.

(** ** The one-file variant of the program

    The second source file of the repository has the same [fetchURL],
    [formatURL], [isValidURL], [isInScope] and [isCodeFile]; it differs in
    [extractLinks], which scans the script assets itself and returns what
    it finds among the candidates, in [processURL], which sends every
    record on [c.OutputCh], and in [writeToFile]. *)

Module OneFile.

(** [extractURLsFromScript]: the URLs found in the body, [nil] on failure. *)
Definition extractURLsFromScript `{Environment} (scriptURL : string) (w : World)
  : list string * World :=
  let '(r, w1) := fetchURL scriptURL w in
  if fetchFailed r then ([], w1)
  else
    match r with
    | Resp (mkResponse _ (Some body)) => (Regexp.FindAllString body, w1)
    | _ => ([], w1)
    end.

(** The last loop of [extractLinks]: [range] walks the candidates
    collected before the loop, and what the scripts hold is appended. *)
Fixpoint scanScripts `{Environment} (urls : list string) (w : World)
  : list string * World :=
  match urls with
  | [] => ([], w)
  | u :: urls' =>
      let '(found, w1) :=
        if isCodeFile u then extractURLsFromScript u w else ([], w) in
      let '(rest, w2) := scanScripts urls' w1 in
      (found ++ rest, w2)
  end.

(** [extractLinks]. *)
Fixpoint extractLinks `{Environment} (base : string) (n : Html.Node) (w : World)
  : list string * World :=
  match n with
  | Html.mkNode type data attr children =>
      let own := if Html.isElement type then elementLinks base data attr else [] in
      let '(below, w1) :=
        (fix ofChildren (l : list Html.Node) (w : World) : list string * World :=
           match l with
           | [] => ([], w)
           | child :: l' =>
               let '(a, w') := extractLinks base child w in
               let '(b, w'') := ofChildren l' w' in
               (a ++ b, w'')
           end) children w in
      let urls := own ++ below in
      let '(scripts, w2) := scanScripts urls w1 in
      (urls ++ scripts, w2)
  end.

(** The body of the loop of [processURL]. *)
Definition processLink (u : string) (w : World) : World :=
  if isValidURL u then
    if isInScope (cr w) u
    then wgAdd 1 (enqueue u (sendOutput ("In-scope: " +:+ u) w))
    else sendOutput ("Out-Of-Scope: " +:+ u) w
  else w.

Definition processLinks (urls : list string) (w : World) : World :=
  fold_left (fun w u => processLink u w) urls w.

(** [processURL]. *)
Definition processURL `{Environment} (pageURL : string) (w : World) : World :=
  if visited (cr w) pageURL then w
  else
    let w1 := logPage pageURL (setVisited pageURL w) in
    let '(r, w2) := fetchURL pageURL w1 in
    if fetchFailed r then w2
    else
      match r with
      | Resp (mkResponse _ (Some body)) =>
          match html_Parse body with
          | None => w2
          | Some doc =>
              let '(urls, w3) := extractLinks pageURL doc w2 in
              processLinks urls w3
          end
      | _ => w2
      end.

(** [writeToFile], given all that was sent on [c.OutputCh] before it was
    closed: the first loop receives every value and writes those that
    start with [In-scope]; when the second loop starts the channel is
    closed and empty. *)
Definition writeToFile `{Environment} (outputFile : string) (received : list string)
    (fs : gmap string string) : option (gmap string string) :=
  if negb (os_Create outputFile) then None
  else
    let fs1 := <[outputFile := EmptyString]> fs in
    let fs2 := WriteString outputFile ("--IN SCOPE URLS:---" +:+ nl) fs1 in
    let fs3 := writerLoop outputFile
                 (List.filter (fun u => HasPrefix u "In-scope") received) fs2 in
    Some (WriteString outputFile ("--OUT OF SCOPE URLS:---" +:+ nl) fs3).

(** [worker], for a single worker that receives at most [fuel] items. *)
Fixpoint worker `{Environment} (fuel : nat) (w : World) : World :=
  match fuel with
  | O => w
  | S fuel' =>
      match Queue (cr w) with
      | [] => w
      | url :: q => worker fuel' (wgAdd (-1) (processURL url (setQueue q w)))
      end
  end.

(** [Crawl]: the final world and the file written, the writer run to the
    end of the closed channel; [None] when the file cannot be created. *)
Definition Crawl `{Environment} (c : Crawler) (startURL outputFile : string) (fuel : nat)
    (fs : gmap string string) : option (World * gmap string string) :=
  let w0 := wgAdd 1 (enqueue startURL (mkWorld c [] [] [] [] [])) in
  let w := worker fuel w0 in
  match writeToFile outputFile (OutputCh w) fs with
  | None => None
  | Some fs' => Some (w, fs')
  end.

End OneFile.

(** ** The prologue of [processURL] under interleaving

    Any number of invocations of [processURL] run at once (one per worker
    goroutine); each is at one of the program points below, and a step of
    the system is a step of one of them.  [c.Mutex] is a flag: [Lock]
    waits until it is clear and sets it, [Unlock] clears it. *)

Module Interleaving.

Inductive pc :=
| AtLock       (* c.Mutex.Lock() *)
| AtCheck      (* if c.Visited[pageURL] *)
| AtUnlockRet  (* c.Mutex.Unlock(); return *)
| AtSet        (* c.Visited[pageURL] = true *)
| AtUnlock     (* c.Mutex.Unlock() *)
| AtFetch      (* resp, err := c.fetchURL(pageURL) *)
| AtRest       (* the rest of the body, after the fetch *)
| Skipped      (* returned without fetching *)
| Done.        (* returned after the fetch *)

Record invocation := mkInv {
  pageURL : string;
  at_ : pc
}.

Record state := mkState {
  invocations : list invocation;
  Mutex : bool;
  Visited : gmap string bool;
  fetched : list string
}.

Definition init : state := mkState [] false ∅ [].


Inductive step : state -> state -> Prop :=
| step_call ts m v f u :
    (* a worker receives [u] from the queue and calls [processURL(u)] *)
    step (mkState ts m v f) (mkState (ts ++ [mkInv u AtLock]) m v f)
| step_lock ts v f i u :
    ts !! i = Some (mkInv u AtLock) ->
    step (mkState ts false v f) (mkState (<[i := mkInv u AtCheck]> ts) true v f)
| step_check_seen ts m v f i u :
    ts !! i = Some (mkInv u AtCheck) ->
    default false (v !! u) = true ->
    step (mkState ts m v f) (mkState (<[i := mkInv u AtUnlockRet]> ts) m v f)
| step_check_new ts m v f i u :
    ts !! i = Some (mkInv u AtCheck) ->
    default false (v !! u) = false ->
    step (mkState ts m v f) (mkState (<[i := mkInv u AtSet]> ts) m v f)
| step_unlock_ret ts m v f i u :
    ts !! i = Some (mkInv u AtUnlockRet) ->
    step (mkState ts m v f) (mkState (<[i := mkInv u Skipped]> ts) false v f)
| step_set ts m v f i u :
    ts !! i = Some (mkInv u AtSet) ->
    step (mkState ts m v f) (mkState (<[i := mkInv u AtUnlock]> ts) m (<[u := true]> v) f)
| step_unlock ts m v f i u :
    ts !! i = Some (mkInv u AtUnlock) ->
    step (mkState ts m v f) (mkState (<[i := mkInv u AtFetch]> ts) false v f)
| step_fetch ts m v f i u :
    ts !! i = Some (mkInv u AtFetch) ->
    step (mkState ts m v f) (mkState (<[i := mkInv u AtRest]> ts) m v (f ++ [u]))
| step_rest ts m v f i u :
    ts !! i = Some (mkInv u AtRest) ->
    step (mkState ts m v f) (mkState (<[i := mkInv u Done]> ts) m v f).

(** The states of an execution: those reached from [init]. *)
Inductive reachable : state -> Prop :=
| reach_init : reachable init
| reach_step s s' : reachable s -> step s s' -> reachable s'.

(** The invocation holds the mutex. *)
Definition inCritical (p : pc) : bool :=
  match p with
  | AtCheck | AtUnlockRet | AtSet | AtUnlock => true
  | _ => false
  end.

(** The invocation has set [Visited[pageURL]] itself. *)
Definition claimed (p : pc) : bool :=
  match p with
  | AtUnlock | AtFetch | AtRest | Done => true
  | _ => false
  end.

(** The invocation has reached the fetch of its page. *)
Definition reachedFetch (p : pc) : bool :=
  match p with
  | AtRest | Done => true
  | _ => false
  end.

(** What holds in every state of an execution. *)
Record invariant (s : state) : Prop := mkInvariant {
  inv_exclusive : forall i j ti tj,
    invocations s !! i = Some ti -> invocations s !! j = Some tj ->
    inCritical (at_ ti) = true -> inCritical (at_ tj) = true -> i = j;
  inv_locked : forall i ti,
    invocations s !! i = Some ti -> inCritical (at_ ti) = true -> Mutex s = true;
  inv_claimed_visited : forall i ti,
    invocations s !! i = Some ti -> claimed (at_ ti) = true ->
    default false (Visited s !! pageURL ti) = true;
  inv_claimed_once : forall i j ti tj,
    invocations s !! i = Some ti -> invocations s !! j = Some tj ->
    claimed (at_ ti) = true -> claimed (at_ tj) = true ->
    pageURL ti = pageURL tj -> i = j;
  inv_new : forall i ti,
    invocations s !! i = Some ti -> at_ ti = AtSet ->
    default false (Visited s !! pageURL ti) = false;
  inv_fetched : forall u, In u (fetched s) ->
    exists i ti, invocations s !! i = Some ti /\ pageURL ti = u
                 /\ reachedFetch (at_ ti) = true;
  inv_nodup : NoDup (fetched s)
}.

End Interleaving.

(** ** Vocabulary of the statements, and sample inputs *)

(** The host has one of the suffixes of the list. *)
Definition hostMatches (host : string) (scopes : list string) : Prop :=
  exists scope, In scope scopes /\ HasSuffix host scope = true.

(** The text that the records [l] make in a file: one line each. *)
Fixpoint lines (l : list string) : string :=
  match l with
  | [] => EmptyString
  | r :: l' => r +:+ nl +:+ lines l'
  end.

(** [l'] is [l] followed by records that all start with [prefix]. *)
Definition extendedBy (prefix : string) (l l' : list string) : Prop :=
  exists us, l' = l ++ map (String.append prefix) us.

(** The candidates that [processURL] sends on the queue. *)
Definition queued (c : Crawler) (urls : list string) : list string :=
  List.filter (fun u => isValidURL u && isInScope c u) urls.

(** What [processURL] learns about the page once it is marked visited:
    the fetch fails, or the body cannot be read or parsed. *)
Definition pageFails `{Environment} (pageURL : string) (w : World) : bool :=
  let '(r, _) := fetchURL pageURL (logPage pageURL (setVisited pageURL w)) in
  match r with
  | Err => true
  | Resp (mkResponse status None) => true
  | Resp (mkResponse status (Some body)) =>
      negb (status =? StatusOK)%Z || negb (NetURL.isSome (html_Parse body))
  end.

(** Every byte of the string passes the test. *)
Fixpoint allBytes (P : ascii -> bool) (s : string) : bool :=
  match s with
  | EmptyString => true
  | String c s' => P c && allBytes P s'
  end.

Definition isCTL (b : ascii) : bool :=
  (nat_of_ascii b <? 32)%nat || (nat_of_ascii b =? 127)%nat.

(** A byte that [url.Parse] reads as part of the path: no control byte, no
    [?], no [#]. *)
Definition pathByte (c : ascii) : bool :=
  negb (isCTL c) && negb (Ascii.eqb c "?") && negb (Ascii.eqb c "#").

(** A byte of a query: no control byte, no [#]. *)
Definition queryByte (c : ascii) : bool :=
  negb (isCTL c) && negb (Ascii.eqb c "#").

(** The text after the authority, as [String] writes it: a path that is
    empty or starts with a slash and reads back as a path, then a query. *)
Definition pathText (P : string) : Prop :=
  (P = EmptyString \/ exists P', P = String "/" P')
  /\ allBytes pathByte P = true
  /\ NetURL.unescapeCheck NetURL.encodePath P = true.

Definition queryText (Q : string) : Prop :=
  Q = EmptyString \/ exists rq, Q = String "?" rq /\ allBytes queryByte rq = true.

Definition fragmentText (F : string) : Prop :=
  F = EmptyString \/ exists ef, F = String "#" ef /\ NetURL.unescapeCheck NetURL.encodeFragment ef = true.

(** The escaped path behind the host, with the slash that [String] adds. *)
Definition slashed (ep : string) : string :=
  if negb (NetURL.isEmpty ep) && negb (HasPrefix ep "/") then String "/" ep else ep.


(** The number of attributes in a tree. *)
Fixpoint attrCount (n : Html.Node) : nat :=
  match n with
  | Html.mkNode _ _ attr children =>
      List.length attr
      + (fix ofChildren (l : list Html.Node) : nat :=
           match l with
           | [] => O
           | child :: l' => attrCount child + ofChildren l'
           end) children
  end.

(** The wait-group counter less the number of queued items. *)
Definition balance (w : World) : Z :=
  WG (cr w) - Z.of_nat (List.length (Queue (cr w))).

(** What a crawl from [startURL] keeps true between two items of the
    worker. *)
Definition crawlInvariant (c0 : Crawler) (startURL : string) (w : World) : Prop :=
  InScope (cr w) = InScope c0
  /\ OutScope (cr w) = OutScope c0
  /\ NoDup (pages w)
  /\ (forall u, In u (pages w) -> visited (cr w) u = true)
  /\ (forall u, In u (Queue (cr w)) \/ In u (pages w) ->
        u = startURL
        \/ (isValidURL u = true /\ isInScope c0 u = true
            /\ In ("In-scope: " +:+ u) (inScopeCh w))).

Module Sample.

(** A page of [http://a.com/]: the same relative link twice, a link to
    another host, and a script. *)
Definition page : Html.Node :=
  Html.mkNode Html.DocumentNode "" []
    [Html.mkNode Html.ElementNode "html" []
       [Html.mkNode Html.ElementNode "a" [Html.mkAttr "" "href" "/b"] [];
        Html.mkNode Html.ElementNode "a" [Html.mkAttr "" "href" "/b"] [];
        Html.mkNode Html.ElementNode "a" [Html.mkAttr "" "href" "http://evil.com/x"] [];
        Html.mkNode Html.ElementNode "script" [Html.mkAttr "" "src" "/app.js"] []]].

Definition script : string := "var next = 'http://a.com/next';".

(** A network that serves the page and its script, and nothing else. *)
Definition serve (past : list Request) (req : Request) : HTTPResult :=
  let u := NetURL.String_ (req_URL req) in
  if String.eqb u "http://a.com/" then Resp (mkResponse 200 (Some "PAGE"))
  else if String.eqb u "http://a.com/app.js" then Resp (mkResponse 200 (Some script))
  else Resp (mkResponse 404 (Some "")).

Definition env : Environment :=
  {| client_Do := serve;
     html_Parse := fun body => if String.eqb body "PAGE" then Some page else None;
     os_Create := fun _ => true;
     os_Write := fun _ _ data => String.length data |}.

(** A network that answers every request with status 404. *)
Definition env404 : Environment :=
  {| client_Do := fun _ _ => Resp (mkResponse 404 (Some ""));
     html_Parse := fun _ => None;
     os_Create := fun _ => true;
     os_Write := fun _ _ data => String.length data |}.

Definition start (c : Crawler) : World := mkWorld c [] [] [] [] [].

End Sample.

(** * Properties *)

(** ** Strings *)

Section StringFacts.

Lemma sliceFrom_length (s : string) : sliceFrom (String.length s) s = EmptyString.
Proof. induction s as [|c s IH]; simpl; auto. Qed.

Lemma sliceTo_length (s : string) : sliceTo (String.length s) s = s.
Proof. induction s as [|c s IH]; simpl; congruence. Qed.

Lemma HasSuffix_empty (s : string) : HasSuffix s EmptyString = true.
Proof.
  unfold HasSuffix. simpl. rewrite Nat.sub_0_r, sliceFrom_length. reflexivity.
Qed.

Lemma append_assoc (a b c : string) : (a +:+ b) +:+ c = a +:+ (b +:+ c).
Proof. induction a as [|x a IH]; simpl; congruence. Qed.

Lemma append_empty_r (a : string) : a +:+ EmptyString = a.
Proof. induction a as [|x a IH]; simpl; congruence. Qed.


End StringFacts.

(** ** The scope classifier *)

Section Scope.

Lemma existsb_hostMatches (host : string) (scopes : list string) :
  existsb (fun scope => HasSuffix host scope) scopes = true <-> hostMatches host scopes.
Proof.
  unfold hostMatches. rewrite existsb_exists. reflexivity.
Qed.

(** C1, as the code has it: when [inScope] is not empty, a URL that
    parses is in scope exactly when its host has one of the [inScope]
    suffixes; the [outScope] list is not consulted. *)
Theorem isInScope_iff_inScope_match (c : Crawler) (u : string) (p : NetURL.URL) :
  InScope c <> [] ->
  NetURL.Parse u = Some p ->
  isInScope c u = true <-> hostMatches (NetURL.Host p) (InScope c).
Proof.
  intros Hne Hp. unfold isInScope. rewrite Hp.
  rewrite <- existsb_hostMatches.
  destruct (existsb _ (InScope c)) eqn:Hin.
  - tauto.
  - destruct (existsb _ (OutScope c)).
    + tauto.
    + destruct (InScope c); [congruence | simpl; tauto].
Qed.

Lemma isInScope_iff_inScope_match_witness :
  isInScope (NewCrawler ["a.com"] ["b.org"]) "http://www.a.com/x" = true
  <-> hostMatches "www.a.com" ["a.com"].
Proof.
  apply (isInScope_iff_inScope_match (NewCrawler ["a.com"] ["b.org"])
           "http://www.a.com/x"
           (NetURL.mkURL "http" "" None "www.a.com" "/x" "" false false "" "" "")).
  - simpl. discriminate.
  - vm_compute. reflexivity.
Defined.

(** C1 as stated fails: a host on both lists is classified in scope. *)
Lemma isInScope_outScope_no_veto :
  InScope (NewCrawler ["a.com"] ["a.com"]) <> []
  /\ isValidURL "http://a.com/" = true
  /\ NetURL.Parse "http://a.com/"
     = Some (NetURL.mkURL "http" "" None "a.com" "/" "" false false "" "" "")
  /\ hostMatches "a.com" (InScope (NewCrawler ["a.com"] ["a.com"]))
  /\ hostMatches "a.com" (OutScope (NewCrawler ["a.com"] ["a.com"]))
  /\ ~ (isInScope (NewCrawler ["a.com"] ["a.com"]) "http://a.com/" = true
        <-> hostMatches "a.com" (InScope (NewCrawler ["a.com"] ["a.com"]))
            /\ ~ hostMatches "a.com" (OutScope (NewCrawler ["a.com"] ["a.com"]))).
Proof.
  assert (Hm : hostMatches "a.com" ["a.com"]).
  { exists "a.com". split; [left; reflexivity | vm_compute; reflexivity]. }
  repeat split; try assumption.
  - simpl. discriminate.
  - intros [H _]. destruct H as [_ H]; [vm_compute; reflexivity | ].
    apply H. exact Hm.
Qed.

(** When [inScope] is empty the classifier is the deny list alone. *)
Lemma isInScope_empty_inScope (c : Crawler) (u : string) (p : NetURL.URL) :
  InScope c = [] ->
  NetURL.Parse u = Some p ->
  isInScope c u = true <-> ~ hostMatches (NetURL.Host p) (OutScope c).
Proof.
  intros He Hp. unfold isInScope. rewrite Hp, He. simpl.
  rewrite <- existsb_hostMatches.
  destruct (existsb _ (OutScope c)); simpl; intuition congruence.
Qed.

(** An empty flag splits to one empty suffix, and the empty suffix
    matches every host. *)
Lemma isInScope_empty_flag (outscopeFlag u : string) (p : NetURL.URL) :
  NetURL.Parse u = Some p ->
  isInScope (main_crawler "" outscopeFlag) u = true.
Proof.
  intros Hp. unfold isInScope. rewrite Hp. simpl.
  rewrite HasSuffix_empty. reflexivity.
Qed.

(** C4 at the failing input: with [-inscope ""] and
    [-outscope "evil.com"], [main] builds the list with the single empty
    suffix and a URL of the denied host is classified in scope; with the
    empty list it is out of scope. *)
Theorem isInScope_empty_inscope_flag :
  Split "" "," = [""]
  /\ isInScope (main_crawler "" "evil.com") "http://evil.com/" = true
  /\ isInScope (NewCrawler [] (Split "evil.com" ",")) "http://evil.com/" = false.
Proof. vm_compute. repeat split. Qed.

End Scope.

(** ** The fetcher *)

Section Fetch.

Context `{Environment}.

Lemma NewRequest_Parse (pageURL : string) :
  NewRequest pageURL
  = option_map (fun u => mkRequest (withHost u (removeEmptyPort (NetURL.Host u))) "")
      (NetURL.Parse pageURL).
Proof. unfold NewRequest. destruct (NetURL.Parse pageURL); reflexivity. Qed.

(** [fetchURL] touches nothing but the log of requests. *)
Lemma fetchURL_frame (pageURL : string) (w : World) :
  cr (fetchURL pageURL w).2 = cr w
  /\ inScopeCh (fetchURL pageURL w).2 = inScopeCh w
  /\ outScopeCh (fetchURL pageURL w).2 = outScopeCh w
  /\ OutputCh (fetchURL pageURL w).2 = OutputCh w
  /\ pages (fetchURL pageURL w).2 = pages w.
Proof.
  unfold fetchURL. rewrite NewRequest_Parse.
  destruct (NetURL.Parse pageURL) as [u|]; simpl; [|tauto].
  destruct (fetchFailed (client_Do (net w) _)); simpl; tauto.
Qed.

(** C7: [fetchURL] makes no request when the URL does not parse, one
    request when the first answer is a response with status 200, and
    otherwise two, the second for the same URL with the scheme [http]
    turned into [https] and [https] into [http]; it returns the outcome
    of its last request. *)
Theorem fetchURL_at_most_two_attempts (pageURL : string) (w : World) :
  exists reqs : list Request,
    net (fetchURL pageURL w).2 = net w ++ reqs
    /\ (List.length reqs <= 2)%nat
    /\ match NewRequest pageURL, NetURL.Parse pageURL with
       | Some req0, Some u =>
           let first := mkRequest (req_URL req0) userAgent in
           let retry := mkRequest (withScheme u (flipScheme (NetURL.Scheme u))) userAgent in
           match client_Do (net w) first with
           | Resp resp =>
               if (StatusCode resp =? StatusOK)%Z
               then reqs = [first] /\ (fetchURL pageURL w).1 = Resp resp
               else reqs = [first; retry]
                    /\ (fetchURL pageURL w).1 = client_Do (net w ++ [first]) retry
           | Err =>
               reqs = [first; retry]
               /\ (fetchURL pageURL w).1 = client_Do (net w ++ [first]) retry
           end
           /\ (NetURL.Scheme u = "http" -> NetURL.Scheme (req_URL retry) = "https")
           /\ (NetURL.Scheme u = "https" -> NetURL.Scheme (req_URL retry) = "http")
       | _, _ => reqs = [] /\ (fetchURL pageURL w).1 = Err
       end.
Proof.
  unfold fetchURL. rewrite NewRequest_Parse.
  destruct (NetURL.Parse pageURL) as [u|]; simpl.
  - destruct (client_Do (net w) _) as [|resp] eqn:Hdo; simpl.
    + eexists. split; [rewrite <- app_assoc; reflexivity|]. split; [simpl; lia|].
      repeat split; intros ->; reflexivity.
    + destruct (StatusCode resp =? StatusOK)%Z eqn:Hs; simpl.
      * eexists. split; [reflexivity|]. split; [simpl; lia|].
        repeat split; intros ->; reflexivity.
      * eexists. split; [rewrite <- app_assoc; reflexivity|]. split; [simpl; lia|].
        repeat split; intros ->; reflexivity.
  - exists []. rewrite app_nil_r. repeat split. simpl; lia.
Qed.

(** C8, as the code has it: the error of [fetchURL] is non-nil exactly
    when the URL does not parse or the last request is a transport
    failure; a last response is returned as it is, whatever its status,
    with a nil error; the callers' test [err != nil || StatusCode != 200]
    is what recognises every failed fetch. *)
Theorem fetchURL_result_is_last_outcome (pageURL : string) (w : World) :
  (NetURL.Parse pageURL = None ->
     (fetchURL pageURL w).1 = Err /\ net (fetchURL pageURL w).2 = net w)
  /\ (forall u, NetURL.Parse pageURL = Some u ->
        exists past req,
          net (fetchURL pageURL w).2 = past ++ [req]
          /\ (fetchURL pageURL w).1 = client_Do past req)
  /\ ((fetchURL pageURL w).1 = Err \/
      exists resp, (fetchURL pageURL w).1 = Resp resp)
  /\ (fetchFailed (fetchURL pageURL w).1 = true <->
        (fetchURL pageURL w).1 = Err
        \/ exists resp, (fetchURL pageURL w).1 = Resp resp /\ StatusCode resp <> StatusOK).
Proof.
  split; [|split; [|split]].
  - intros Hp. unfold fetchURL. rewrite NewRequest_Parse, Hp. simpl. auto.
  - intros u Hp. unfold fetchURL. rewrite NewRequest_Parse, Hp. simpl.
    destruct (fetchFailed (client_Do (net w) _)) eqn:Hf; simpl.
    + eexists _, _. split; reflexivity.
    + eexists _, _. split; reflexivity.
  - destruct (fetchURL pageURL w).1 as [|resp]; [left | right; exists resp]; reflexivity.
  - destruct (fetchURL pageURL w).1 as [|resp]; simpl.
    + split; auto.
    + rewrite negb_true_iff, Z.eqb_neq. split.
      * intros Hs. right. exists resp. auto.
      * intros [Habs|[resp' [E Hs]]]; [discriminate|]. congruence.
Qed.

End Fetch.

(** C8 as stated fails: when both requests are answered with status 404,
    [fetchURL] returns that response and a nil error. *)
Lemma fetchURL_non200_nil_error :
  exists resp,
    (@fetchURL Sample.env404 "http://a.com/" (Sample.start (NewCrawler [] []))).1 = Resp resp
    /\ StatusCode resp = 404%Z
    /\ StatusCode resp <> StatusOK
    /\ (@fetchURL Sample.env404 "http://a.com/" (Sample.start (NewCrawler [] []))).1 <> Err.
Proof.
  exists (mkResponse 404 (Some "")).
  repeat split; try (vm_compute; congruence).
Qed.

(** ** The coordinator *)

Section Coordinator.

Context `{Environment}.

Lemma extendedBy_refl (prefix : string) (l : list string) : extendedBy prefix l l.
Proof. exists []. simpl. rewrite app_nil_r. reflexivity. Qed.

Lemma extendedBy_trans (prefix : string) (l1 l2 l3 : list string) :
  extendedBy prefix l1 l2 -> extendedBy prefix l2 l3 -> extendedBy prefix l1 l3.
Proof.
  intros [us ->] [vs ->]. exists (us ++ vs).
  rewrite map_app, app_assoc. reflexivity.
Qed.

Lemma extendedBy_one (prefix u : string) (l : list string) :
  extendedBy prefix l (l ++ [prefix +:+ u]).
Proof. exists [u]. reflexivity. Qed.

Lemma isInScope_ext (c c' : Crawler) (u : string) :
  InScope c = InScope c' -> OutScope c = OutScope c' -> isInScope c u = isInScope c' u.
Proof. intros Hi Ho. unfold isInScope. rewrite Hi, Ho. reflexivity. Qed.

(** The loop over the URLs of a script sends records and nothing else. *)
Lemma emitScriptURLs_frame (urls : list string) (w : World) :
  cr (emitScriptURLs urls w) = cr w
  /\ net (emitScriptURLs urls w) = net w
  /\ pages (emitScriptURLs urls w) = pages w
  /\ extendedBy "In-scope: " (inScopeCh w) (inScopeCh (emitScriptURLs urls w))
  /\ extendedBy "Out-Of-Scope: " (outScopeCh w) (outScopeCh (emitScriptURLs urls w)).
Proof.
  revert w. induction urls as [|u urls IH]; intros w; simpl.
  - repeat split; apply extendedBy_refl.
  - destruct (isInScope (cr w) u).
    + destruct (IH (sendIn ("In-scope: " +:+ u) w)) as (Hc & Hn & Hp & Hi & Ho).
      simpl in *. rewrite Hc, Hn, Hp. repeat split; [|exact Ho].
      eapply extendedBy_trans; [apply extendedBy_one | exact Hi].
    + destruct (IH (sendOut ("Out-Of-Scope: " +:+ u) w)) as (Hc & Hn & Hp & Hi & Ho).
      simpl in *. rewrite Hc, Hn, Hp. repeat split; [exact Hi|].
      eapply extendedBy_trans; [apply extendedBy_one | exact Ho].
Qed.

(** [extractURLsFromScript] leaves the crawler as it is: in particular
    it sends nothing on the queue. *)
Lemma extractURLsFromScript_frame (scriptURL : string) (w : World) :
  cr (extractURLsFromScript scriptURL w) = cr w
  /\ pages (extractURLsFromScript scriptURL w) = pages w
  /\ extendedBy "In-scope: " (inScopeCh w) (inScopeCh (extractURLsFromScript scriptURL w))
  /\ extendedBy "Out-Of-Scope: " (outScopeCh w)
       (outScopeCh (extractURLsFromScript scriptURL w)).
Proof.
  unfold extractURLsFromScript.
  destruct (fetchURL_frame scriptURL w) as (Hc & Hi & Ho & _ & Hp).
  destruct (fetchURL scriptURL w) as [r w1]. simpl in *.
  assert (Hid : cr w1 = cr w /\ pages w1 = pages w
                /\ extendedBy "In-scope: " (inScopeCh w) (inScopeCh w1)
                /\ extendedBy "Out-Of-Scope: " (outScopeCh w) (outScopeCh w1)).
  { rewrite Hc, Hp, Hi, Ho. repeat split; apply extendedBy_refl. }
  destruct (fetchFailed r); [exact Hid|].
  destruct r as [|[status [body|]]]; try exact Hid.
  destruct (emitScriptURLs_frame (Regexp.FindAllString body) w1)
    as (Hc' & _ & Hp' & Hi' & Ho').
  rewrite Hc', Hp', Hc, Hp. rewrite <- Hi, <- Ho. auto.
Qed.

(** One candidate: the queue grows by the candidate when it is valid and
    in scope, whatever [Visited] holds, and [Visited] is not touched. *)
Lemma processLink_frame (u : string) (w : World) :
  Queue (cr (processLink u w))
  = Queue (cr w) ++ (if isValidURL u && isInScope (cr w) u then [u] else [])
  /\ Visited (cr (processLink u w)) = Visited (cr w)
  /\ InScope (cr (processLink u w)) = InScope (cr w)
  /\ OutScope (cr (processLink u w)) = OutScope (cr w)
  /\ pages (processLink u w) = pages w
  /\ extendedBy "In-scope: " (inScopeCh w) (inScopeCh (processLink u w))
  /\ extendedBy "Out-Of-Scope: " (outScopeCh w) (outScopeCh (processLink u w)).
Proof.
  unfold processLink.
  set (w1 := if isValidURL u then _ else _).
  assert (H1 : Queue (cr w1)
               = Queue (cr w) ++ (if isValidURL u && isInScope (cr w) u then [u] else [])
               /\ Visited (cr w1) = Visited (cr w)
               /\ InScope (cr w1) = InScope (cr w)
               /\ OutScope (cr w1) = OutScope (cr w)
               /\ pages w1 = pages w
               /\ extendedBy "In-scope: " (inScopeCh w) (inScopeCh w1)
               /\ extendedBy "Out-Of-Scope: " (outScopeCh w) (outScopeCh w1)).
  { subst w1. destruct (isValidURL u), (isInScope (cr w) u); simpl;
      rewrite ?app_nil_r; repeat split;
      first [apply extendedBy_refl | eexists [_]; reflexivity]. }
  destruct (isCodeFile u); [|exact H1].
  destruct (extractURLsFromScript_frame u w1) as (Hc & Hp & Hi & Ho).
  destruct H1 as (Q & V & I & O & P & Ri & Ro).
  rewrite Hc, Hp. repeat split; try assumption.
  - eapply extendedBy_trans; eassumption.
  - eapply extendedBy_trans; eassumption.
Qed.

Lemma processLinks_frame (urls : list string) (w : World) :
  Queue (cr (processLinks urls w)) = Queue (cr w) ++ queued (cr w) urls
  /\ Visited (cr (processLinks urls w)) = Visited (cr w)
  /\ InScope (cr (processLinks urls w)) = InScope (cr w)
  /\ OutScope (cr (processLinks urls w)) = OutScope (cr w)
  /\ pages (processLinks urls w) = pages w
  /\ extendedBy "In-scope: " (inScopeCh w) (inScopeCh (processLinks urls w))
  /\ extendedBy "Out-Of-Scope: " (outScopeCh w) (outScopeCh (processLinks urls w)).
Proof.
  unfold processLinks, queued. revert w.
  induction urls as [|u urls IH]; intros w; simpl.
  - rewrite app_nil_r. repeat split; apply extendedBy_refl.
  - destruct (processLink_frame u w) as (Q & V & I & O & P & Ri & Ro).
    destruct (IH (processLink u w)) as (Q' & V' & I' & O' & P' & Ri' & Ro').
    rewrite Q', V', I', O', P', Q, V, I, O, P.
    repeat split; try (eapply extendedBy_trans; eassumption).
    rewrite <- app_assoc. f_equal.
    assert (E : forall x, isInScope (cr (processLink u w)) x = isInScope (cr w) x)
      by (intros x; apply isInScope_ext; assumption).
    rewrite (filter_ext _ (fun x => isValidURL x && isInScope (cr w) x))
      by (intros x; rewrite E; reflexivity).
    destruct (isValidURL u && isInScope (cr w) u); reflexivity.
Qed.

End Coordinator.

(** ** Pages: the visited map, failed fetches, and the queue *)

Section Pages.

Context `{Environment}.

Lemma visited_insert (u v : string) (m : gmap string bool) :
  default false (<[u := true]> m !! v) = String.eqb u v || default false (m !! v).
Proof.
  destruct (String.eqb_spec u v) as [->|Hne].
  - rewrite lookup_insert_eq. reflexivity.
  - rewrite lookup_insert_ne by assumption. reflexivity.
Qed.

(** A page already visited is left alone: no fetch, no record, no change. *)
Lemma processURL_visited (pageURL : string) (w : World) :
  visited (cr w) pageURL = true -> processURL pageURL w = w.
Proof. intros Hv. unfold processURL. rewrite Hv. reflexivity. Qed.

(** A page whose fetch or parse fails: [processURL] stops after the fetch. *)
Lemma processURL_fails (pageURL : string) (w : World) :
  visited (cr w) pageURL = false ->
  pageFails pageURL w = true ->
  processURL pageURL w = (fetchURL pageURL (logPage pageURL (setVisited pageURL w))).2.
Proof.
  intros Hv Hf. unfold processURL, pageFails in *. rewrite Hv.
  destruct (fetchURL pageURL _) as [r w2]. simpl.
  destruct r as [|[status [body|]]]; simpl in *; try reflexivity.
  - destruct (status =? StatusOK)%Z; simpl in *; [|reflexivity].
    destruct (html_Parse body); [discriminate | reflexivity].
  - destruct (status =? StatusOK)%Z; reflexivity.
Qed.


Lemma processURL_frame (pageURL : string) (w : World) :
  Visited (cr (processURL pageURL w))
  = (if visited (cr w) pageURL then Visited (cr w)
     else <[pageURL := true]> (Visited (cr w)))
  /\ InScope (cr (processURL pageURL w)) = InScope (cr w)
  /\ OutScope (cr (processURL pageURL w)) = OutScope (cr w)
  /\ pages (processURL pageURL w)
     = pages w ++ (if visited (cr w) pageURL then [] else [pageURL])
  /\ extendedBy "In-scope: " (inScopeCh w) (inScopeCh (processURL pageURL w))
  /\ extendedBy "Out-Of-Scope: " (outScopeCh w) (outScopeCh (processURL pageURL w)).
Proof.
  unfold processURL. destruct (visited (cr w) pageURL) eqn:Hv.
  - rewrite app_nil_r. repeat split; apply extendedBy_refl.
  - destruct (fetchURL_frame pageURL (logPage pageURL (setVisited pageURL w)))
      as (Hc & Hi & Ho & _ & Hp).
    destruct (fetchURL pageURL _) as [r w2]. simpl in *.
    assert (Hstop :
      Visited (cr w2) = <[pageURL := true]> (Visited (cr w))
      /\ InScope (cr w2) = InScope (cr w)
      /\ OutScope (cr w2) = OutScope (cr w)
      /\ pages w2 = pages w ++ [pageURL]
      /\ extendedBy "In-scope: " (inScopeCh w) (inScopeCh w2)
      /\ extendedBy "Out-Of-Scope: " (outScopeCh w) (outScopeCh w2)).
    { rewrite Hc, Hi, Ho, Hp. repeat split; apply extendedBy_refl. }
    destruct (fetchFailed r); [exact Hstop|].
    destruct r as [|[status [body|]]]; try exact Hstop.
    destruct (html_Parse body) as [doc|]; [|exact Hstop].
    destruct (processLinks_frame (extractLinks pageURL doc) w2)
      as (_ & V & I & O & P & Ri & Ro).
    destruct Hstop as (V0 & I0 & O0 & P0 & Ri0 & Ro0).
    rewrite V, I, O, P. repeat split; try assumption.
    + eapply extendedBy_trans; eassumption.
    + eapply extendedBy_trans; eassumption.
Qed.

Lemma processURL_keeps_visited (pageURL u : string) (w : World) :
  visited (cr w) u = true -> visited (cr (processURL pageURL w)) u = true.
Proof.
  intros Hu. destruct (processURL_frame pageURL w) as (V & _).
  unfold visited in *. rewrite V.
  destruct (default false (Visited (cr w) !! pageURL)); [assumption|].
  rewrite visited_insert, Hu. apply orb_true_r.
Qed.

(** Once a URL is visited, the worker never fetches it as a page. *)
Lemma worker_pages_visited (fuel : nat) (w : World) (u : string) :
  visited (cr w) u = true ->
  exists l, pages (worker fuel w) = pages w ++ l /\ ~ In u l.
Proof.
  revert w. induction fuel as [|fuel IH]; intros w Hu; simpl.
  - exists []. rewrite app_nil_r. auto.
  - destruct (Queue (cr w)) as [|url q] eqn:Hq.
    + exists []. rewrite app_nil_r. auto.
    + set (w1 := setQueue q w).
      assert (Hu1 : visited (cr w1) u = true) by exact Hu.
      pose proof (processURL_keeps_visited url u w1 Hu1) as Hu2.
      destruct (IH (wgAdd (-1) (processURL url w1)) Hu2) as [l [Hl Hn]].
      destruct (processURL_frame url w1) as (_ & _ & _ & P & _).
      rewrite Hl.
      change (pages (wgAdd (-1) (processURL url w1))) with (pages (processURL url w1)).
      rewrite P. change (pages w1) with (pages w).
      destruct (visited (cr w1) url) eqn:Hv.
      * exists l. rewrite app_nil_r. auto.
      * exists (url :: l). rewrite <- app_assoc. split; [reflexivity|].
        intros [->|Hin]; [congruence | auto].
Qed.


(** C10: when the fetch of a page fails (transport error or status other
    than 200 after the retry) or its body does not parse, [processURL]
    returns with no record sent and nothing added to the queue or to the
    wait group, the URL is in the visited map, and the worker never
    fetches that URL as a page again. *)
Theorem processURL_failed_page_stays_visited (pageURL : string) (w : World) :
  visited (cr w) pageURL = false ->
  pageFails pageURL w = true ->
  inScopeCh (processURL pageURL w) = inScopeCh w
  /\ outScopeCh (processURL pageURL w) = outScopeCh w
  /\ Queue (cr (processURL pageURL w)) = Queue (cr w)
  /\ WG (cr (processURL pageURL w)) = WG (cr w)
  /\ visited (cr (processURL pageURL w)) pageURL = true
  /\ pages (processURL pageURL w) = pages w ++ [pageURL]
  /\ (forall w', visited (cr w') pageURL = true -> processURL pageURL w' = w')
  /\ (forall fuel, exists l,
        pages (worker fuel (wgAdd (-1) (processURL pageURL w)))
        = pages (processURL pageURL w) ++ l
        /\ ~ In pageURL l).
Proof.
  intros Hv Hf.
  assert (Hvis : visited (cr (processURL pageURL w)) pageURL = true).
  { destruct (processURL_frame pageURL w) as (V & _).
    unfold visited in *. rewrite V, Hv, lookup_insert_eq. reflexivity. }
  destruct (processURL_frame pageURL w) as (_ & _ & _ & P & _).
  rewrite Hv in P.
  rewrite (processURL_fails pageURL w Hv Hf) in *.
  destruct (fetchURL_frame pageURL (logPage pageURL (setVisited pageURL w)))
    as (Hc & Hi & Ho & _ & Hp).
  refine (conj _ (conj _ (conj _ (conj _ (conj Hvis (conj P (conj _ _))))))).
  - rewrite Hi. reflexivity.
  - rewrite Ho. reflexivity.
  - rewrite Hc. reflexivity.
  - rewrite Hc. reflexivity.
  - intros w'. apply processURL_visited.
  - intros fuel.
    apply (worker_pages_visited fuel (wgAdd (-1) _) pageURL). exact Hvis.
Qed.


End Pages.


Lemma processURL_failed_page_stays_visited_witness :
  inScopeCh (@processURL Sample.env404 "http://a.com/" (Sample.start (NewCrawler ["a.com"] []))) = []
  /\ outScopeCh (@processURL Sample.env404 "http://a.com/" (Sample.start (NewCrawler ["a.com"] []))) = []
  /\ Queue (cr (@processURL Sample.env404 "http://a.com/" (Sample.start (NewCrawler ["a.com"] [])))) = [].
Proof.
  destruct (@processURL_failed_page_stays_visited Sample.env404 "http://a.com/"
              (Sample.start (NewCrawler ["a.com"] []))) as (Hi & Ho & Hq & _).
  - vm_compute. reflexivity.
  - vm_compute. reflexivity.
  - auto.
Defined.


(** C6 at the failing input: the script of the page holds the in-scope URL
    [http://a.com/next]; [processURL] of [url-scan.go] sends its record
    but does not send it on the queue, while the one-file variant sends it
    on the queue as it does with every other candidate. *)
Theorem script_URL_not_enqueued :
  inList "http://a.com/next" (Regexp.FindAllString Sample.script) = true
  /\ isValidURL "http://a.com/next" = true
  /\ isInScope (NewCrawler ["a.com"] []) "http://a.com/next" = true
  /\ inList "In-scope: http://a.com/next"
       (inScopeCh (@processURL Sample.env "http://a.com/"
                     (Sample.start (NewCrawler ["a.com"] [])))) = true
  /\ inList "http://a.com/next"
       (Queue (cr (@processURL Sample.env "http://a.com/"
                     (Sample.start (NewCrawler ["a.com"] []))))) = false
  /\ inList "http://a.com/next"
       (Queue (cr (@OneFile.processURL Sample.env "http://a.com/"
                     (Sample.start (NewCrawler ["a.com"] []))))) = true.
Proof. repeat split; vm_compute; reflexivity. Qed.

(** ** The output files *)

Section Files.

Context `{Environment}.

(** Every write to the disk succeeds. *)
Hypothesis writes_succeed :
  forall path content data, os_Write path content data = String.length data.

Lemma WriteString_lookup (path data content : string) (fs : gmap string string) :
  fs !! path = Some content ->
  WriteString path data fs !! path = Some (content +:+ data).
Proof.
  intros Hl. unfold WriteString. rewrite Hl, writes_succeed, sliceTo_length.
  apply lookup_insert_eq.
Qed.

Lemma WriteString_lookup_ne (path p data : string) (fs : gmap string string) :
  p <> path -> WriteString path data fs !! p = fs !! p.
Proof.
  intros Hne. unfold WriteString. destruct (fs !! path); [|reflexivity].
  apply lookup_insert_ne. congruence.
Qed.

Lemma writerLoop_lookup (path content : string) (l : list string) (fs : gmap string string) :
  fs !! path = Some content ->
  writerLoop path l fs !! path = Some (content +:+ lines l).
Proof.
  unfold writerLoop. revert fs content.
  induction l as [|r l IH]; intros fs content Hl.
  - simpl. rewrite append_empty_r. exact Hl.
  - cbn [fold_left lines].
    rewrite (IH _ (content +:+ (r +:+ nl))) by (apply WriteString_lookup; exact Hl).
    rewrite !append_assoc. reflexivity.
Qed.

Lemma writerLoop_lookup_ne (path p : string) (l : list string) (fs : gmap string string) :
  p <> path -> writerLoop path l fs !! p = fs !! p.
Proof.
  intros Hne. unfold writerLoop. revert fs.
  induction l as [|r l IH]; intros fs; [reflexivity|].
  cbn [fold_left]. rewrite IH. apply WriteString_lookup_ne. exact Hne.
Qed.




End Files.


(** ** At most one fetch of a page, under interleaving *)

Section Mutex.

Import Interleaving.

Lemma lookup_moved (ts : list invocation) (i j : nat) (u : string) (p p' : pc)
    (t : invocation) :
  ts !! i = Some (mkInv u p) ->
  <[i := mkInv u p']> ts !! j = Some t ->
  (j = i /\ t = mkInv u p') \/ (j <> i /\ ts !! j = Some t).
Proof.
  intros Hi Hj. apply list_lookup_insert_Some in Hj.
  destruct Hj as [(-> & <- & _) | (Hne & Hj)]; [left | right]; auto.
Qed.

Lemma lookup_called (ts : list invocation) (j : nat) (x t : invocation) :
  (ts ++ [x]) !! j = Some t -> ts !! j = Some t \/ t = x.
Proof.
  intros Hj. apply lookup_app_Some in Hj.
  destruct Hj as [Hj | (_ & Hj)]; [left; exact Hj | right].
  apply list_lookup_singleton_Some in Hj. destruct Hj as [_ ->]. reflexivity.
Qed.

Lemma lookup_kept (ts : list invocation) (i j : nat) (u : string) (p p' : pc)
    (t : invocation) :
  ts !! i = Some (mkInv u p) ->
  ts !! j = Some t ->
  (j <> i /\ <[i := mkInv u p']> ts !! j = Some t)
  \/ (j = i /\ t = mkInv u p /\ <[i := mkInv u p']> ts !! j = Some (mkInv u p')).
Proof.
  intros Hi Hj. destruct (decide (j = i)) as [->|Hne].
  - right. rewrite list_lookup_insert_eq by (eapply lookup_lt_Some; eauto).
    split; [reflexivity|]. split; [congruence | reflexivity].
  - left. rewrite list_lookup_insert_ne by congruence. auto.
Qed.

Lemma default_insert_true (v : gmap string bool) (u x : string) :
  default false (v !! x) = true -> default false (<[u := true]> v !! x) = true.
Proof.
  intros Hx. destruct (decide (u = x)) as [->|Hne].
  - rewrite lookup_insert_eq. reflexivity.
  - rewrite lookup_insert_ne by assumption. exact Hx.
Qed.

Ltac moved :=
  repeat match goal with
    | Hi : ?ts !! ?i = Some (mkInv ?u ?p),
      Hj : <[?i := mkInv ?u ?p']> ?ts !! ?j = Some ?t |- _ =>
        destruct (lookup_moved ts i j u p p' t Hi Hj) as [[-> ->] | [? ?]]; clear Hj
    | Hj : (?ts ++ [?x]) !! ?j = Some ?t |- _ =>
        destruct (lookup_called ts j x t Hj) as [? | ->]; clear Hj
    end;
  simpl in *; try discriminate; try congruence.

Lemma invariant_init : invariant init.
Proof.
  split; simpl; intros; try discriminate; try contradiction.
  constructor.
Qed.

Lemma fetched_called (ts : list invocation) (x : invocation) (f : list string) :
  (forall u, In u f -> exists i ti, ts !! i = Some ti /\ pageURL ti = u
                                    /\ reachedFetch (at_ ti) = true) ->
  forall u, In u f -> exists i ti, (ts ++ [x]) !! i = Some ti /\ pageURL ti = u
                                   /\ reachedFetch (at_ ti) = true.
Proof.
  intros Hf u Hu. destruct (Hf u Hu) as (i & ti & Hi & Hurl & Hr).
  exists i, ti. split; [|auto]. apply lookup_app_l_Some. exact Hi.
Qed.

Lemma fetched_moved (ts : list invocation) (i : nat) (u : string) (p p' : pc)
    (f : list string) :
  ts !! i = Some (mkInv u p) ->
  (reachedFetch p = true -> reachedFetch p' = true) ->
  (forall u0, In u0 f -> exists j tj, ts !! j = Some tj /\ pageURL tj = u0
                                      /\ reachedFetch (at_ tj) = true) ->
  forall u0, In u0 f ->
    exists j tj, <[i := mkInv u p']> ts !! j = Some tj /\ pageURL tj = u0
                 /\ reachedFetch (at_ tj) = true.
Proof.
  intros Hi Hp Hf u0 Hu0. destruct (Hf u0 Hu0) as (j & tj & Hj & Hurl & Hr).
  destruct (lookup_kept ts i j u p p' tj Hi Hj) as [(Hne & Hj') | (-> & -> & Hj')].
  - exists j, tj. auto.
  - exists i, (mkInv u p'). simpl in *. auto.
Qed.

Lemma reachedFetch_claimed (p : pc) : reachedFetch p = true -> claimed p = true.
Proof. destruct p; simpl; congruence. Qed.

Lemma invariant_step (s s' : state) : invariant s -> step s s' -> invariant s'.
Proof.
  intros [Iex Ilk Icv Ico Inw Ife Ind] Hstep.
  destruct Hstep; simpl in *.
  all: split; simpl.
  all: try assumption.
  all: try (apply fetched_called; assumption).
  all: try (eapply fetched_moved; [eassumption | simpl; congruence | assumption]).
  all: intros.
  all: moved; eauto.
  all: try (exfalso; moved; eauto; fail).
  all: try (eapply (Icv _ (mkInv _ _)); [eassumption | reflexivity]).
  all: try (apply default_insert_true; eauto; fail).
  all: try (rewrite lookup_insert_eq; reflexivity).
  all: try match goal with
    | Hs : ?ts !! ?i = Some (mkInv ?u AtSet), Hj : ?ts !! ?j = Some ?tj,
      Hc : claimed (at_ ?tj) = true |- _ =>
        exfalso; pose proof (Icv _ _ Hj Hc) as X;
        pose proof (Inw _ _ Hs eq_refl) as Y; simpl in Y; congruence
    | Hs : ?ts !! ?i = Some (mkInv ?u AtSet), Hj : ?ts !! ?j = Some ?tj,
      Ha : at_ ?tj = AtSet, Hne : ?j <> ?i |- _ =>
        exfalso; apply Hne; eapply Iex; eauto; rewrite Ha; reflexivity
    end.
  - (* the fetch: the new entry of the log belongs to this invocation *)
    match goal with Hin : In _ (_ ++ [_]) |- _ => apply in_app_or in Hin; destruct Hin as [Hold|Hnew] end.
    + eapply fetched_moved; [eassumption | simpl; congruence | eassumption | assumption].
    + destruct Hnew as [<-|[]]. exists i, (mkInv u AtRest).
      rewrite list_lookup_insert_eq by (eapply lookup_lt_Some; eauto). auto.
  - (* the fetch: the URL is not in the log yet *)
    apply NoDup_app. split; [assumption|]. split; [|apply NoDup_singleton].
    intros x Hx Hx'. apply list_elem_of_singleton in Hx'. subst x.
    apply list_elem_of_In in Hx.
    destruct (Ife u Hx) as (j & tj & Hj & Hurl & Hr).
    assert (j = i).
    { eapply Ico; eauto using reachedFetch_claimed. }
    subst j. rewrite Hj in *. 
    match goal with Hi : Some tj = Some _ |- _ => injection Hi as -> end.
    discriminate.
Qed.

Lemma invariant_reachable (s : state) : reachable s -> invariant s.
Proof.
  induction 1 as [|s s' _ IH Hstep]; [apply invariant_init|].
  eapply invariant_step; eassumption.
Qed.

(** C2: in every state of every execution, whatever the number of
    concurrent invocations of [processURL] and their interleaving, the
    log of page fetches holds no URL twice and no two invocations for
    the same URL have both reached the fetch; the test and the update of
    [Visited] are made with the mutex held, by one invocation at a time. *)
Theorem page_fetched_at_most_once (s : state) :
  reachable s ->
  NoDup (fetched s)
  /\ (forall i j ti tj,
        invocations s !! i = Some ti -> invocations s !! j = Some tj ->
        reachedFetch (at_ ti) = true -> reachedFetch (at_ tj) = true ->
        pageURL ti = pageURL tj -> i = j)
  /\ (forall i j ti tj,
        invocations s !! i = Some ti -> invocations s !! j = Some tj ->
        inCritical (at_ ti) = true -> inCritical (at_ tj) = true -> i = j)
  /\ (forall i ti,
        invocations s !! i = Some ti -> inCritical (at_ ti) = true -> Mutex s = true).
Proof.
  intros Hr. destruct (invariant_reachable s Hr) as [Iex Ilk Icv Ico Inw Ife Ind].
  split; [exact Ind|]. split; [|split; [exact Iex | exact Ilk]].
  intros i j ti tj Hi Hj Ri Rj Hu.
  eapply Ico; eauto using reachedFetch_claimed.
Qed.

End Mutex.

(** Two invocations for the same URL: the first fetches the page, the
    second finds it visited and returns. *)
Lemma page_fetched_at_most_once_witness :
  NoDup ["http://a.com/"]
  /\ Interleaving.reachable
       (Interleaving.mkState
          [Interleaving.mkInv "http://a.com/" Interleaving.AtRest;
           Interleaving.mkInv "http://a.com/" Interleaving.Skipped]
          false (<["http://a.com/" := true]> ∅) ["http://a.com/"]).
Proof.
  pose (u := "http://a.com/").
  pose (v := <[u := true]> (∅ : gmap string bool)).
  assert (R : Interleaving.reachable
                (Interleaving.mkState
                   [Interleaving.mkInv u Interleaving.AtRest;
                    Interleaving.mkInv u Interleaving.Skipped] false v [u])).
  { eapply Interleaving.reach_step;
      [|apply (Interleaving.step_unlock_ret
                 [Interleaving.mkInv u Interleaving.AtRest;
                  Interleaving.mkInv u Interleaving.AtUnlockRet] true v [u] 1 u eq_refl)].
    eapply Interleaving.reach_step;
      [|apply (Interleaving.step_check_seen
                 [Interleaving.mkInv u Interleaving.AtRest;
                  Interleaving.mkInv u Interleaving.AtCheck] true v [u] 1 u eq_refl);
        subst v; rewrite lookup_insert_eq; reflexivity].
    eapply Interleaving.reach_step;
      [|apply (Interleaving.step_lock
                 [Interleaving.mkInv u Interleaving.AtRest;
                  Interleaving.mkInv u Interleaving.AtLock] v [u] 1 u eq_refl)].
    eapply Interleaving.reach_step;
      [|apply (Interleaving.step_fetch
                 [Interleaving.mkInv u Interleaving.AtFetch;
                  Interleaving.mkInv u Interleaving.AtLock] false v [] 0 u eq_refl)].
    eapply Interleaving.reach_step;
      [|apply (Interleaving.step_unlock
                 [Interleaving.mkInv u Interleaving.AtUnlock;
                  Interleaving.mkInv u Interleaving.AtLock] true v [] 0 u eq_refl)].
    eapply Interleaving.reach_step;
      [|apply (Interleaving.step_set
                 [Interleaving.mkInv u Interleaving.AtSet;
                  Interleaving.mkInv u Interleaving.AtLock] true ∅ [] 0 u eq_refl)].
    eapply Interleaving.reach_step;
      [|apply (Interleaving.step_check_new
                 [Interleaving.mkInv u Interleaving.AtCheck;
                  Interleaving.mkInv u Interleaving.AtLock] true ∅ [] 0 u eq_refl);
        reflexivity].
    eapply Interleaving.reach_step;
      [|apply (Interleaving.step_lock
                 [Interleaving.mkInv u Interleaving.AtLock;
                  Interleaving.mkInv u Interleaving.AtLock] ∅ [] 0 u eq_refl)].
    eapply Interleaving.reach_step;
      [|apply (Interleaving.step_call
                 [Interleaving.mkInv u Interleaving.AtLock] false ∅ [] u)].
    eapply Interleaving.reach_step;
      [|apply (Interleaving.step_call [] false ∅ [] u)].
    apply Interleaving.reach_init. }
  split; [|exact R].
  exact (proj1 (page_fetched_at_most_once _ R)).
Defined.

(** ** Resolving a reference against [http://a.com/x/] *)

Section Bytes.

Lemma allBytes_app (P : ascii -> bool) (a b : string) :
  allBytes P (a +:+ b) = allBytes P a && allBytes P b.
Proof. induction a as [|c a IH]; simpl; [reflexivity|]. rewrite IH. apply andb_assoc. Qed.

Lemma allBytes_sliceFrom (P : ascii -> bool) (n : nat) (s : string) :
  allBytes P s = true -> allBytes P (sliceFrom n s) = true.
Proof.
  revert s. induction n as [|n IH]; intros [|c s]; simpl; auto.
  intros H. apply andb_true_iff in H. apply IH. tauto.
Qed.

Lemma allBytes_sliceTo (P : ascii -> bool) (n : nat) (s : string) :
  allBytes P s = true -> allBytes P (sliceTo n s) = true.
Proof.
  revert s. induction n as [|n IH]; intros [|c s]; simpl; auto.
  intros H. apply andb_true_iff in H. destruct H as [Hc Hs].
  rewrite Hc. apply IH. exact Hs.
Qed.

Lemma allBytes_weaken (P Q : ascii -> bool) (s : string) :
  (forall c, P c = true -> Q c = true) -> allBytes P s = true -> allBytes Q s = true.
Proof.
  intros HPQ. induction s as [|c s IH]; simpl; auto.
  intros H. apply andb_true_iff in H. destruct H as [Hc Hs].
  rewrite (HPQ c Hc). auto.
Qed.

Lemma stringContainsCTLByte_allBytes (s : string) :
  NetURL.stringContainsCTLByte s = negb (allBytes (fun c => negb (isCTL c)) s).
Proof.
  induction s as [|c s IH]; simpl; [reflexivity|].
  rewrite IH. unfold isCTL.
  destruct ((nat_of_ascii c <? 32)%nat || (nat_of_ascii c =? 127)%nat); reflexivity.
Qed.

(** The first occurrence of a one-byte separator. *)
Lemma Index_absent (c : ascii) (s : string) :
  allBytes (fun x => negb (Ascii.eqb x c)) s = true ->
  Index s (String c EmptyString) = None.
Proof.
  induction s as [|x s IH]; simpl; [reflexivity|].
  intros H. apply andb_true_iff in H. destruct H as [Hx Hs].
  apply negb_true_iff in Hx. rewrite Hx. simpl. rewrite (IH Hs). reflexivity.
Qed.

Lemma Index_first (c : ascii) (a b : string) :
  allBytes (fun x => negb (Ascii.eqb x c)) a = true ->
  Index (a +:+ String c b) (String c EmptyString) = Some (String.length a).
Proof.
  induction a as [|x a IH]; simpl.
  - intros _. rewrite Ascii.eqb_refl. reflexivity.
  - intros H. apply andb_true_iff in H. destruct H as [Hx Hs].
    apply negb_true_iff in Hx. rewrite Hx. simpl. rewrite (IH Hs). reflexivity.
Qed.

Lemma sliceTo_app (a b : string) : sliceTo (String.length a) (a +:+ b) = a.
Proof. induction a as [|x a IH]; simpl; [destruct b; reflexivity | congruence]. Qed.

Lemma sliceFrom_app (a b : string) : sliceFrom (String.length a) (a +:+ b) = b.
Proof. induction a as [|x a IH]; simpl; auto. Qed.

Lemma Cut_absent (c : ascii) (s : string) :
  allBytes (fun x => negb (Ascii.eqb x c)) s = true ->
  Cut s (String c EmptyString) = (s, EmptyString, false).
Proof. intros H. unfold Cut. rewrite (Index_absent c s H). reflexivity. Qed.

Lemma Cut_first (c : ascii) (a b : string) :
  allBytes (fun x => negb (Ascii.eqb x c)) a = true ->
  Cut (a +:+ String c b) (String c EmptyString) = (a, b, true).
Proof.
  intros H. unfold Cut. rewrite (Index_first c a b H). simpl String.length.
  rewrite sliceTo_app.
  replace (String.length a + 1)%nat with (String.length (a +:+ String c EmptyString)).
  - replace (a +:+ String c b) with ((a +:+ String c EmptyString) +:+ b).
    + rewrite sliceFrom_app. reflexivity.
    + rewrite append_assoc. reflexivity.
  - clear. induction a; simpl; auto.
Qed.

End Bytes.

Section Escapes.

Import NetURL.

Ltac each_byte c := destruct c as [[] [] [] [] [] [] [] []].

Lemma validEncoded_byte (c : ascii) :
  implb (validEncoded (String c EmptyString) encodePath) (pathByte c) = true.
Proof. each_byte c; reflexivity. Qed.

Lemma validEncoded_cons (c : ascii) (s : string) (mode : encoding) :
  validEncoded (String c s) mode
  = validEncoded (String c EmptyString) mode && validEncoded s mode.
Proof. simpl. rewrite andb_true_r. reflexivity. Qed.

Lemma validEncoded_pathBytes (s : string) :
  validEncoded s encodePath = true -> allBytes pathByte s = true.
Proof.
  induction s as [|c s IH]; [reflexivity|].
  rewrite validEncoded_cons. intros H. apply andb_true_iff in H. destruct H as [Hc Hs].
  simpl. rewrite (IH Hs), andb_true_r.
  pose proof (validEncoded_byte c) as Hb. rewrite Hc in Hb. exact Hb.
Qed.

Lemma escape_cons (c : ascii) (s : string) (mode : encoding) :
  escape (String c s) mode = escape (String c EmptyString) mode +:+ escape s mode.
Proof.
  simpl. destruct (shouldEscape c mode); [|reflexivity].
  destruct (Ascii.eqb c " " && encoding_eqb mode encodeQueryComponent); reflexivity.
Qed.

Lemma escape_byte_path (c : ascii) :
  allBytes pathByte (escape (String c EmptyString) encodePath) = true.
Proof. each_byte c; reflexivity. Qed.

Lemma escape_pathBytes (s : string) : allBytes pathByte (escape s encodePath) = true.
Proof.
  induction s as [|c s IH]; [reflexivity|].
  rewrite escape_cons, allBytes_app, IH, escape_byte_path. reflexivity.
Qed.

Lemma unescapeCheck_escape_byte_path (c : ascii) (rest : string) :
  unescapeCheck encodePath (escape (String c EmptyString) encodePath +:+ rest)
  = unescapeCheck encodePath rest.
Proof. each_byte c; reflexivity. Qed.

Lemma unescapeCheck_escape_byte_fragment (c : ascii) (rest : string) :
  unescapeCheck encodeFragment (escape (String c EmptyString) encodeFragment +:+ rest)
  = unescapeCheck encodeFragment rest.
Proof. each_byte c; reflexivity. Qed.

Lemma unescapeCheck_escape_path (s : string) :
  unescapeCheck encodePath (escape s encodePath) = true.
Proof.
  induction s as [|c s IH]; [reflexivity|].
  rewrite escape_cons, unescapeCheck_escape_byte_path. exact IH.
Qed.

Lemma unescapeCheck_escape_fragment (s : string) :
  unescapeCheck encodeFragment (escape s encodeFragment) = true.
Proof.
  induction s as [|c s IH]; [reflexivity|].
  rewrite escape_cons, unescapeCheck_escape_byte_fragment. exact IH.
Qed.

Lemma unescape_Some_check (s : string) (mode : encoding) :
  match unescape s mode with Some _ => true | None => false end = unescapeCheck mode s.
Proof. unfold unescape. destruct (unescapeCheck mode s); reflexivity. Qed.

(** What [EscapedPath] returns can be read back as a path. *)
Lemma EscapedPath_ok (u : URL) :
  allBytes pathByte (EscapedPath u) = true
  /\ unescapeCheck encodePath (EscapedPath u) = true.
Proof.
  unfold EscapedPath.
  destruct (negb (isEmpty (RawPath u)) && validEncoded (RawPath u) encodePath
            && _) eqn:Hraw.
  - apply andb_true_iff in Hraw. destruct Hraw as [Hraw Hun].
    apply andb_true_iff in Hraw. destruct Hraw as [_ Hvalid].
    split; [apply validEncoded_pathBytes; exact Hvalid|].
    rewrite <- unescape_Some_check.
    destruct (unescape (RawPath u) encodePath); [reflexivity | discriminate].
  - destruct (String.eqb (Path u) "*"); [split; reflexivity|].
    split; [apply escape_pathBytes | apply unescapeCheck_escape_path].
Qed.

Lemma EscapedFragment_ok (u : URL) :
  unescapeCheck encodeFragment (EscapedFragment u) = true.
Proof.
  unfold EscapedFragment.
  destruct (negb (isEmpty (RawFragment u)) && validEncoded (RawFragment u) encodeFragment
            && _) eqn:Hraw.
  - apply andb_true_iff in Hraw. destruct Hraw as [_ Hun].
    rewrite <- unescape_Some_check.
    destruct (unescape (RawFragment u) encodeFragment); [reflexivity | discriminate].
  - apply unescapeCheck_escape_fragment.
Qed.

End Escapes.

Section ParseFacts.

Import NetURL.

Lemma Index_before (c : ascii) (s : string) (i : nat) :
  Index s (String c EmptyString) = Some i ->
  allBytes (fun x => negb (Ascii.eqb x c)) (sliceTo i s) = true.
Proof.
  revert i. induction s as [|x s IH]; intros i; simpl; [discriminate|].
  destruct (Ascii.eqb x c) eqn:Hx; simpl.
  - intros [= <-]. reflexivity.
  - destruct (Index s (String c EmptyString)) as [j|]; simpl; [|discriminate].
    intros [= <-]. simpl. rewrite Hx. simpl. apply IH. reflexivity.
Qed.

Lemma Cut_before (c : ascii) (s a b : string) (f : bool) :
  Cut s (String c EmptyString) = (a, b, f) ->
  allBytes (fun x => negb (Ascii.eqb x c)) a = true.
Proof.
  unfold Cut. destruct (Index s (String c EmptyString)) as [i|] eqn:Hi.
  - intros [= <- _ _]. apply (Index_before c s i Hi).
  - intros [= <- _ _]. clear -Hi.
    induction s as [|x s IH]; [reflexivity|]. simpl in *.
    destruct (Ascii.eqb x c); simpl in *; [discriminate|].
    destruct (Index s (String c EmptyString)); [discriminate|]. auto.
Qed.

Lemma Cut_allBytes (P : ascii -> bool) (s sep a b : string) (f : bool) :
  Cut s sep = (a, b, f) ->
  allBytes P s = true -> allBytes P a = true /\ allBytes P b = true.
Proof.
  unfold Cut. destruct (Index s sep) as [i|]; intros [= <- <- _] Hs.
  - split; [apply allBytes_sliceTo | apply allBytes_sliceFrom]; exact Hs.
  - split; [exact Hs | reflexivity].
Qed.

Lemma getSchemeFrom_rest (P : ascii -> bool) (whole s scheme rest : string) (i : nat) :
  getSchemeFrom whole i s = Some (scheme, rest) ->
  allBytes P whole = true -> allBytes P s = true -> allBytes P rest = true.
Proof.
  revert i. induction s as [|c s IH]; intros i; cbn [getSchemeFrom allBytes].
  - intros [= _ <-]. auto.
  - intros Hg Hw Hs. apply andb_true_iff in Hs. destruct Hs as [_ Hs].
    revert Hg.
    destruct (between "a" "z" c || between "A" "Z" c); [intros Hg; eapply IH; eauto|].
    destruct (between "0" "9" c || oneOf c "+-.").
    { destruct i; [intros [= _ <-]; exact Hw | intros Hg; eapply IH; eauto]. }
    destruct (Ascii.eqb c ":").
    { destruct i; [discriminate | intros [= _ <-]; exact Hs]. }
    intros [= _ <-]. exact Hw.
Qed.

Lemma splitQuery_rawQuery (P : ascii -> bool) (rest0 rest rq : string) (fq : bool) :
  splitQuery rest0 = (rest, fq, rq) ->
  allBytes P rest0 = true -> allBytes P rq = true.
Proof.
  unfold splitQuery.
  destruct (HasSuffix rest0 "?" && (Count rest0 "?" =? 1)%nat).
  - intros [= _ _ <-] _. reflexivity.
  - destruct (Cut rest0 "?") as [[r q] f] eqn:Hc. intros [= _ _ <-] H0.
    apply (Cut_allBytes P rest0 "?" r q f Hc H0).
Qed.

Lemma setPath_fields (u u' : URL) (p : string) :
  setPath u p = Some u' ->
  Scheme u' = Scheme u /\ Opaque u' = Opaque u /\ User u' = User u /\ Host u' = Host u
  /\ ForceQuery u' = ForceQuery u /\ RawQuery u' = RawQuery u
  /\ Fragment u' = Fragment u /\ RawFragment u' = RawFragment u.
Proof.
  unfold setPath. destruct (unescape p encodePath); [|discriminate].
  intros [= <-]. simpl. tauto.
Qed.

Lemma setFragment_fields (u u' : URL) (f : string) :
  setFragment u f = Some u' ->
  Scheme u' = Scheme u /\ Opaque u' = Opaque u /\ User u' = User u /\ Host u' = Host u
  /\ ForceQuery u' = ForceQuery u /\ RawQuery u' = RawQuery u.
Proof.
  unfold setFragment. destruct (unescape f encodeFragment); [|discriminate].
  intros [= <-]. simpl. tauto.
Qed.

Lemma parseHier_fields (scheme rest rq : string) (fq : bool) (url : URL) :
  parseHier scheme rest fq rq = Some url ->
  Scheme url = scheme /\ RawQuery url = rq
  /\ (isEmpty scheme = true -> Opaque url = EmptyString).
Proof.
  unfold parseHier.
  destruct (negb (HasPrefix rest "/") && negb (isEmpty scheme)) eqn:Hop.
  { intros [= <-]. simpl. repeat split; auto.
    intros He. rewrite He in Hop. rewrite andb_false_r in Hop. discriminate. }
  clear Hop.
  destruct (negb (HasPrefix rest "/")
            && (let '(segment, _, _) := Cut rest "/" in Contains segment ":"));
    [discriminate|].
  destruct ((negb (isEmpty scheme) || negb (HasPrefix rest "///")) && HasPrefix rest "//").
  - destruct (match Index (sliceFrom 2 rest) "/" with Some _ => _ | None => _ end)
      as [authority rest'].
    destruct (parseAuthority authority) as [[user host]|]; [|discriminate].
    intros Hs. apply setPath_fields in Hs. simpl in Hs. intuition congruence.
  - intros Hs. apply setPath_fields in Hs. simpl in Hs. intuition congruence.
Qed.

Lemma isEmpty_ToLower (s : string) : isEmpty (ToLower s) = isEmpty s.
Proof. destruct s; reflexivity. Qed.

Lemma parse_fields (u : string) (url : URL) :
  parse u = Some url ->
  allBytes queryByte u = true ->
  allBytes queryByte (RawQuery url) = true
  /\ (isEmpty (Scheme url) = true -> Opaque url = EmptyString).
Proof.
  unfold parse. intros Hp Hu.
  destruct (stringContainsCTLByte u); [discriminate|].
  destruct (String.eqb u "*"); [injection Hp as <-; auto|].
  unfold getScheme in Hp.
  destruct (getSchemeFrom u 0 u) as [[scheme0 rest0]|] eqn:Hg; [|discriminate].
  pose proof (getSchemeFrom_rest queryByte u u scheme0 rest0 0 Hg Hu Hu) as Hr0.
  destruct (splitQuery rest0) as [[rest fq] rq] eqn:Hq.
  pose proof (splitQuery_rawQuery queryByte rest0 rest rq fq Hq Hr0) as Hrq.
  apply parseHier_fields in Hp. destruct Hp as (Hs & Hraw & Hop).
  rewrite Hraw. split; [exact Hrq|].
  rewrite Hs, isEmpty_ToLower. rewrite <- (isEmpty_ToLower scheme0). exact Hop.
Qed.

Lemma queryByte_split (s : string) :
  allBytes (fun c => negb (isCTL c)) s = true ->
  allBytes (fun x => negb (Ascii.eqb x "#")) s = true ->
  allBytes queryByte s = true.
Proof.
  induction s as [|c s IH]; [reflexivity|]. simpl. unfold queryByte at 1.
  intros H1 H2. apply andb_true_iff in H1, H2.
  destruct H1 as [-> H1], H2 as [-> H2]. simpl. auto.
Qed.

(** What [url.Parse] accepts: the query has no control byte and no [#],
    and a reference without a scheme is not opaque. *)
Lemma Parse_fields (r : string) (ref : URL) :
  Parse r = Some ref ->
  allBytes queryByte (RawQuery ref) = true
  /\ (isEmpty (Scheme ref) = true -> Opaque ref = EmptyString).
Proof.
  unfold Parse. destruct (Cut r "#") as [[u frag] f] eqn:Hc.
  destruct (parse u) as [url|] eqn:Hp; [|discriminate].
  assert (Hu : allBytes queryByte u = true).
  { apply queryByte_split.
    - unfold parse in Hp. rewrite stringContainsCTLByte_allBytes in Hp.
      destruct (allBytes _ u); [reflexivity | discriminate].
    - apply (Cut_before "#" r u frag f Hc). }
  destruct (parse_fields u url Hp Hu) as [Hq Ho].
  destruct (isEmpty frag).
  - intros [= <-]. auto.
  - intros Hf. apply setFragment_fields in Hf.
    destruct Hf as (Hs & Hop & _ & _ & _ & Hrq). rewrite Hs, Hop, Hrq. auto.
Qed.

End ParseFacts.

Section Reparse.

Import NetURL.

Lemma HasSuffix_cons (x c : ascii) (s : string) :
  HasSuffix (String x s) (String c EmptyString)
  = match s with
    | EmptyString => Ascii.eqb x c
    | _ => HasSuffix s (String c EmptyString)
    end.
Proof.
  unfold HasSuffix. destruct s as [|y s].
  - simpl. destruct (Ascii.eqb x c); reflexivity.
  - cbn [String.length]. rewrite Nat.sub_1_r. cbn [Nat.pred Nat.leb sliceFrom].
    replace (S (String.length s) - 1)%nat with (String.length s) by lia.
    reflexivity.
Qed.

Lemma HasSuffix_Index (c : ascii) (s : string) :
  HasSuffix s (String c EmptyString) = true ->
  Index s (String c EmptyString) <> None.
Proof.
  induction s as [|x s IH]; [discriminate|].
  rewrite HasSuffix_cons. cbn [Index HasPrefix].
  destruct (Ascii.eqb x c) eqn:Hx; simpl; [discriminate|].
  destruct s as [|y s]; [discriminate|].
  intros Hs. specialize (IH Hs).
  destruct (Index (String y s) (String c EmptyString)); [discriminate | contradiction].
Qed.

Lemma HasSuffix_app (c : ascii) (a b : string) :
  b <> EmptyString ->
  HasSuffix (a +:+ b) (String c EmptyString) = HasSuffix b (String c EmptyString).
Proof.
  intros Hb. induction a as [|x a IH]; [reflexivity|].
  cbn [String.append]. rewrite HasSuffix_cons.
  destruct (a +:+ b) eqn:Hab; [|exact IH].
  destruct a, b; simpl in Hab; congruence.
Qed.

Lemma length_append (a b : string) :
  String.length (a +:+ b) = (String.length a + String.length b)%nat.
Proof. induction a; simpl; auto. Qed.

(** The query split leaves a path without [?] as it is. *)
Lemma splitQuery_no_query (X : string) :
  allBytes (fun x => negb (Ascii.eqb x "?")) X = true ->
  splitQuery X = (X, false, EmptyString).
Proof.
  intros HX. unfold splitQuery.
  assert (Hc : (Count X "?" =? 1)%nat = false).
  { unfold Count. destruct (String.length X); simpl; [reflexivity|].
    rewrite (Index_absent "?" X HX). reflexivity. }
  rewrite Hc, andb_false_r, (Cut_absent "?" X HX). reflexivity.
Qed.

Lemma splitQuery_query (X rq : string) :
  allBytes (fun x => negb (Ascii.eqb x "?")) X = true ->
  exists fq rq', splitQuery (X +:+ String "?" rq) = (X, fq, rq').
Proof.
  intros HX. unfold splitQuery.
  destruct (HasSuffix (X +:+ String "?" rq) "?"
            && (Count (X +:+ String "?" rq) "?" =? 1)%nat) eqn:Hc.
  - apply andb_true_iff in Hc. destruct Hc as [Hsuf Hcount].
    assert (rq = EmptyString) as ->.
    { destruct rq as [|d rq]; [reflexivity|]. exfalso.
      rewrite HasSuffix_app in Hsuf by discriminate.
      rewrite HasSuffix_cons in Hsuf.
      apply HasSuffix_Index in Hsuf.
      unfold Count in Hcount. rewrite length_append in Hcount.
      cbn [String.length] in Hcount. rewrite Nat.add_succ_r in Hcount.
      cbn [CountFrom] in Hcount. rewrite (Index_first "?" X _ HX) in Hcount.
      replace (String.length X + String.length "?")%nat
        with (String.length (X +:+ "?")) in Hcount by (rewrite length_append; reflexivity).
      replace (X +:+ String "?" (String d rq)) with ((X +:+ "?") +:+ String d rq) in Hcount
        by (rewrite append_assoc; reflexivity).
      rewrite sliceFrom_app in Hcount. rewrite Nat.add_succ_r in Hcount.
      cbn [CountFrom] in Hcount.
      destruct (Index (String d rq) "?"); [discriminate | contradiction]. }
    exists true, EmptyString. f_equal. f_equal.
    rewrite length_append. cbn [String.length].
    replace (String.length X + 1 - 1)%nat with (String.length X) by lia.
    apply sliceTo_app.
  - exists false, rq. rewrite (Cut_first "?" X rq HX). reflexivity.
Qed.

Lemma parseAuthority_a_com : parseAuthority "a.com" = Some (None, "a.com").
Proof. vm_compute. reflexivity. Qed.

Lemma pathByte_facts (c : ascii) :
  pathByte c = true ->
  negb (isCTL c) = true /\ negb (Ascii.eqb c "?") = true /\ negb (Ascii.eqb c "#") = true.
Proof.
  unfold pathByte. intros H. apply andb_true_iff in H. destruct H as [H H3].
  apply andb_true_iff in H. tauto.
Qed.

Lemma queryByte_facts (c : ascii) :
  queryByte c = true -> negb (isCTL c) = true /\ negb (Ascii.eqb c "#") = true.
Proof. unfold queryByte. intros H. apply andb_true_iff in H. exact H. Qed.

Lemma queryText_bytes (P : ascii -> bool) (Q : string) :
  queryText Q -> P "?"%char = true -> (forall c, queryByte c = true -> P c = true) ->
  allBytes P Q = true.
Proof.
  intros [->|(rq & -> & Hrq)] Hq HP; [reflexivity|].
  simpl. rewrite Hq. simpl. eapply allBytes_weaken; eauto.
Qed.

Lemma parse_a_com (P Q : string) :
  pathText P -> queryText Q ->
  exists url, parse ("http://a.com" +:+ P +:+ Q) = Some url
              /\ Scheme url = "http" /\ Host url = "a.com".
Proof.
  intros (Hshape & Hbytes & Hcheck) HQ.
  assert (HX : allBytes (fun x => negb (Ascii.eqb x "?")) ("//a.com" +:+ P) = true).
  { rewrite allBytes_app. apply andb_true_iff. split; [reflexivity|].
    eapply allBytes_weaken; [|exact Hbytes]. intros c Hc. apply pathByte_facts in Hc. tauto. }
  assert (Hsplit : exists fq rq, splitQuery ("//a.com" +:+ P +:+ Q) = ("//a.com" +:+ P, fq, rq)).
  { destruct HQ as [->|(rq & -> & _)].
    - rewrite append_empty_r. eexists _, _. apply splitQuery_no_query. exact HX.
    - rewrite <- append_assoc. apply splitQuery_query. exact HX. }
  destruct Hsplit as (fq & rq & Hsplit).
  unfold parse.
  rewrite stringContainsCTLByte_allBytes, !allBytes_app.
  rewrite (allBytes_weaken pathByte _ P) by
    (first [exact Hbytes | intros c Hc; apply pathByte_facts in Hc; tauto]).
  rewrite (queryText_bytes _ Q HQ) by
    (first [reflexivity | intros c Hc; apply queryByte_facts in Hc; tauto]).
  change (negb (allBytes (fun c => negb (isCTL c)) "http://a.com" && (true && true)))
    with false. cbv iota.
  change (getScheme ("http://a.com" +:+ P +:+ Q))
    with (Some ("http", "//a.com" +:+ P +:+ Q)).
  change (String.eqb ("http://a.com" +:+ P +:+ Q) "*") with false. cbv iota beta.
  rewrite Hsplit. change (ToLower "http") with "http".
  unfold parseHier.
  change (HasPrefix ("//a.com" +:+ P) "/") with true.
  change (HasPrefix ("//a.com" +:+ P) "//") with true.
  cbn [negb andb orb isEmpty].
  change (sliceFrom 2 ("//a.com" +:+ P)) with ("a.com" +:+ P).
  destruct Hshape as [->|(P' & ->)].
  - change (Index ("a.com" +:+ "") "/") with (@None nat). cbv iota beta.
    change ("a.com" +:+ "") with "a.com". rewrite parseAuthority_a_com.
    eexists. split; [reflexivity|]. split; reflexivity.
  - change (Index ("a.com" +:+ String "/" P') "/") with (Some 5%nat). cbv iota beta.
    change (sliceTo 5 ("a.com" +:+ String "/" P')) with "a.com".
    change (sliceFrom 5 ("a.com" +:+ String "/" P')) with (String "/" P').
    rewrite parseAuthority_a_com. unfold setPath, unescape. rewrite Hcheck.
    eexists. split; [reflexivity|]. split; reflexivity.
Qed.

Lemma Parse_a_com (P Q F : string) :
  pathText P -> queryText Q -> fragmentText F ->
  exists url, Parse ("http://a.com" +:+ P +:+ Q +:+ F) = Some url
              /\ Scheme url = "http" /\ Host url = "a.com".
Proof.
  intros HP HQ HF.
  destruct (parse_a_com P Q HP HQ) as (url & Hparse & Hs & Hh).
  assert (Hpre : allBytes (fun x => negb (Ascii.eqb x "#")) ("http://a.com" +:+ P +:+ Q) = true).
  { rewrite !allBytes_app.
    rewrite (allBytes_weaken pathByte _ P) by
      (first [apply HP | intros c Hc; apply pathByte_facts in Hc; tauto]).
    rewrite (queryText_bytes _ Q HQ) by
      (first [reflexivity | intros c Hc; apply queryByte_facts in Hc; tauto]).
    reflexivity. }
  unfold Parse.
  replace ("http://a.com" +:+ P +:+ Q +:+ F) with (("http://a.com" +:+ P +:+ Q) +:+ F)
    by (rewrite !append_assoc; reflexivity).
  destruct HF as [->|(ef & -> & Hef)].
  - rewrite append_empty_r, (Cut_absent "#" _ Hpre), Hparse. simpl. eauto.
  - rewrite (Cut_first "#" _ ef Hpre), Hparse.
    destruct (isEmpty ef); [eauto|].
    unfold setFragment, unescape. rewrite Hef.
    eexists. split; [reflexivity|]. simpl. auto.
Qed.

End Reparse.

Section Resolve.

Import NetURL.

Lemma String_a_com (path rawpath rq frag rawfrag : string) (omit fq : bool) :
  String_ (mkURL "http" "" None "a.com" path rawpath omit fq rq frag rawfrag)
  = "http://a.com"
    +:+ slashed (EscapedPath (mkURL "http" "" None "a.com" path rawpath omit fq rq frag rawfrag))
    +:+ (if fq || negb (isEmpty rq) then String "?" rq else EmptyString)
    +:+ (if negb (isEmpty frag)
         then String "#" (EscapedFragment
                            (mkURL "http" "" None "a.com" path rawpath omit fq rq frag rawfrag))
         else EmptyString).
Proof.
  unfold String_, slashed. cbn [Scheme Opaque User Host Path ForceQuery RawQuery Fragment OmitHost].
  cbn [isEmpty negb andb orb isSome].
  rewrite andb_false_r. cbv iota.
  change (escape "a.com" encodeHost) with "a.com".
  set (ep := EscapedPath _). set (ef := EscapedFragment _).
  rewrite !andb_true_r.
  destruct (negb (isEmpty ep) && negb (HasPrefix ep "/"));
    destruct (fq || negb (isEmpty rq));
    destruct (negb (isEmpty frag));
    destruct path; simpl; rewrite ?append_assoc, ?append_empty_r; simpl;
    rewrite ?append_assoc, ?append_empty_r; reflexivity.
Qed.

Lemma slashed_pathText (u : URL) : pathText (slashed (EscapedPath u)).
Proof.
  destruct (EscapedPath_ok u) as [Hb Hc]. unfold slashed, pathText.
  destruct (EscapedPath u) as [|c ep]; [simpl; auto|].
  cbn [isEmpty negb andb HasPrefix].
  destruct (Ascii.eqb c "/") eqn:Hslash; cbn [negb].
  - apply Ascii.eqb_eq in Hslash. subst c. split; [right; eauto | auto].
  - split; [right; eauto|]. split; [exact Hb | exact Hc].
Qed.

Lemma ResolveReference_a_com (ref : URL) :
  isEmpty (Scheme ref) = true ->
  isEmpty (Host ref) = true ->
  User ref = None ->
  Opaque ref = EmptyString ->
  exists path rawpath omit fq rq frag rawfrag,
    ResolveReference (mkURL "http" "" None "a.com" "/x/" "" false false "" "" "") ref
    = mkURL "http" "" None "a.com" path rawpath omit fq rq frag rawfrag
    /\ (rq = RawQuery ref \/ rq = EmptyString).
Proof.
  intros Hs Hh Hu Ho. unfold ResolveReference.
  rewrite Hs, Hh, Hu, Ho. cbn [isEmpty negb orb isSome andb Opaque Scheme User Host].
  rewrite andb_false_r. cbv iota.
  unfold setPath_, setPath.
  destruct (isEmpty (Path ref) && negb (ForceQuery ref) && isEmpty (RawQuery ref));
    cbn [Scheme Opaque User Host Path RawPath OmitHost ForceQuery RawQuery Fragment RawFragment];
    destruct (unescape _ encodePath); repeat eexists; auto.
Qed.

(** C9, as the code has it: a reference that [url.Parse] accepts with no
    scheme, no host and no user resolves against [http://a.com/x/] to a
    text that parses as an absolute URL of host [a.com]. *)
Theorem formatURL_keeps_base_host (r : string) (ref : URL) :
  Parse r = Some ref ->
  IsAbs ref = false ->
  Host ref = EmptyString ->
  User ref = None ->
  exists p, Parse (formatURL "http://a.com/x/" r) = Some p
            /\ IsAbs p = true /\ Host p = "a.com".
Proof.
  intros Hp Habs Hhost Huser.
  unfold IsAbs in Habs. apply negb_false_iff in Habs.
  destruct (Parse_fields r ref Hp) as [Hrq Hop].
  unfold formatURL. rewrite Hp. unfold IsAbs. rewrite Habs. cbn [negb].
  change (Parse "http://a.com/x/")
    with (Some (mkURL "http" "" None "a.com" "/x/" "" false false "" "" "")).
  cbv iota.
  destruct (ResolveReference_a_com ref Habs) as
    (path & rawpath & omit & fq & rq & frag & rawfrag & -> & Hq);
    [rewrite Hhost; reflexivity | exact Huser | exact (Hop Habs) |].
  rewrite String_a_com.
  destruct (Parse_a_com
              (slashed (EscapedPath (mkURL "http" "" None "a.com" path rawpath omit fq rq frag rawfrag)))
              (if fq || negb (isEmpty rq) then String "?" rq else EmptyString)
              (if negb (isEmpty frag)
               then String "#" (EscapedFragment
                      (mkURL "http" "" None "a.com" path rawpath omit fq rq frag rawfrag))
               else EmptyString))
    as (p & Hparse & Hs & Hh).
  - apply slashed_pathText.
  - destruct (fq || negb (isEmpty rq)); [right | left; reflexivity].
    exists rq. split; [reflexivity|]. destruct Hq as [->| ->]; [exact Hrq | reflexivity].
  - destruct (negb (isEmpty frag)); [right | left; reflexivity].
    eexists. split; [reflexivity | apply EscapedFragment_ok].
  - exists p. split; [exact Hparse|]. unfold IsAbs. rewrite Hs, Hh. auto.
Qed.

End Resolve.

Lemma formatURL_keeps_base_host_witness :
  exists p, NetURL.Parse (formatURL "http://a.com/x/" "../c d?q=1#top") = Some p
            /\ NetURL.IsAbs p = true /\ NetURL.Host p = "a.com".
Proof.
  eapply formatURL_keeps_base_host.
  - vm_compute. reflexivity.
  - reflexivity.
  - reflexivity.
  - reflexivity.
Defined.

Lemma formatURL_network_path_reference :
  (exists ref, NetURL.Parse "//evil.com/y" = Some ref /\ NetURL.IsAbs ref = false)
  /\ formatURL "http://a.com/x/" "//evil.com/y" = "http://evil.com/y"
  /\ exists p, NetURL.Parse (formatURL "http://a.com/x/" "//evil.com/y") = Some p
               /\ NetURL.IsAbs p = true
               /\ NetURL.Host p = "evil.com"
               /\ NetURL.Host p <> "a.com".
Proof.
  split; [|split].
  - eexists. split; vm_compute; reflexivity.
  - vm_compute. reflexivity.
  - eexists. split; [vm_compute; reflexivity|].
    split; [reflexivity|]. split; [reflexivity|]. discriminate.
Qed.

(** ** The one-file variant *)

Section OneFileFacts.


(** What the one-file [writeToFile] leaves: both headers in one file, and
    between them the in-scope records only. *)
Lemma OneFile_writeToFile_sample :
  match @OneFile.writeToFile Sample.env "out"
          ["In-scope: http://a.com/b"; "Out-Of-Scope: http://evil.com/x"] ∅ with
  | Some fs =>
      fs !! "out"
      = Some ("--IN SCOPE URLS:---" +:+ nl +:+ "In-scope: http://a.com/b" +:+ nl
              +:+ "--OUT OF SCOPE URLS:---" +:+ nl)
  | None => False
  end.
Proof. vm_compute. reflexivity. Qed.

End OneFileFacts.

(** * Further properties of the code *)

(** ** More on strings and on the scope lists *)

Section Suffixes.

Lemma sliceTo_sliceFrom (n : nat) (s : string) : sliceTo n s +:+ sliceFrom n s = s.
Proof.
  revert s. induction n as [|n IH]; intros [|c s]; simpl; try reflexivity.
  rewrite IH. reflexivity.
Qed.

Lemma HasSuffix_append (pre suf : string) : HasSuffix (pre +:+ suf) suf = true.
Proof.
  unfold HasSuffix. rewrite length_append.
  replace (String.length pre + String.length suf - String.length suf)%nat
    with (String.length pre) by lia.
  rewrite sliceFrom_app, String.eqb_refl, andb_true_r.
  apply Nat.leb_le. lia.
Qed.

Lemma HasSuffix_iff (s suf : string) :
  HasSuffix s suf = true <-> exists pre, s = pre +:+ suf.
Proof.
  split.
  - unfold HasSuffix. intros H. apply andb_true_iff in H. destruct H as [_ H].
    apply String.eqb_eq in H.
    set (n := (String.length s - String.length suf)%nat) in *.
    exists (sliceTo n s). rewrite <- H. symmetry. apply sliceTo_sliceFrom.
  - intros [pre ->]. apply HasSuffix_append.
Qed.

Lemma HasPrefix_iff (s p : string) :
  HasPrefix s p = true <-> exists rest, s = p +:+ rest.
Proof.
  revert s. induction p as [|c p IH]; intros s; simpl.
  - split; eauto.
  - destruct s as [|d s]; [split; [discriminate | intros [r Hr]; discriminate]|].
    rewrite andb_true_iff, IH. split.
    + intros [Hc [rest ->]]. apply Ascii.eqb_eq in Hc. subst d. eauto.
    + intros [rest Hr]. injection Hr as -> ->. rewrite Ascii.eqb_refl. eauto.
Qed.

Lemma genSplit_nonempty (fuel : nat) (s sep : string) : genSplit fuel s sep <> [].
Proof. destruct fuel; simpl; [discriminate|]. destruct (Index s sep); discriminate. Qed.

Lemma Split_comma_nonempty (s : string) : Split s "," <> [].
Proof. unfold Split. apply genSplit_nonempty. Qed.

(** X1: a crawler built without [inScope] entries classifies by the deny
    list alone: a URL that parses is in scope exactly when its host has
    none of the [outScope] suffixes. *)
Theorem isInScope_deny_list_alone (outscope : list string) (u : string) (p : NetURL.URL) :
  NetURL.Parse u = Some p ->
  isInScope (NewCrawler [] outscope) u = true <-> ~ hostMatches (NetURL.Host p) outscope.
Proof.
  intros Hp. apply (isInScope_empty_inScope (NewCrawler [] outscope) u p); [reflexivity | exact Hp].
Qed.

(** X2: with the lists that [main] builds from the flags, the value of
    [-outscope] never changes a classification. *)
Theorem main_outscope_flag_ignored (inscopeFlag outscope1 outscope2 u : string) :
  isInScope (main_crawler inscopeFlag outscope1) u
  = isInScope (main_crawler inscopeFlag outscope2) u.
Proof.
  unfold isInScope, main_crawler. cbn [InScope OutScope NewCrawler].
  destruct (NetURL.Parse u) as [p|]; [|reflexivity].
  destruct (existsb _ (Split inscopeFlag ",")); [reflexivity|].
  assert (Hlen : (List.length (Split inscopeFlag ",") =? 0)%nat = false).
  { pose proof (Split_comma_nonempty inscopeFlag).
    destruct (Split inscopeFlag ","); [contradiction | reflexivity]. }
  rewrite Hlen. destruct (existsb _ (Split outscope1 ",")), (existsb _ (Split outscope2 ","));
    reflexivity.
Qed.

(** X3: the match is on the text of the host, not on domain labels: a
    host that ends with an [inScope] entry is in scope, whatever precedes
    the entry. *)
Theorem isInScope_any_host_ending_with_entry
    (c : Crawler) (u pre scope : string) (p : NetURL.URL) :
  NetURL.Parse u = Some p ->
  NetURL.Host p = pre +:+ scope ->
  In scope (InScope c) ->
  isInScope c u = true.
Proof.
  intros Hp Hh Hin. unfold isInScope. rewrite Hp.
  assert (He : existsb (fun s => HasSuffix (NetURL.Host p) s) (InScope c) = true).
  { apply existsb_exists. exists scope. split; [exact Hin|].
    rewrite Hh. apply HasSuffix_append. }
  rewrite He. reflexivity.
Qed.

(** X4: a URL with a control byte before any [#] does not parse; it is
    never in scope, whatever the lists, and [formatURL] returns it as it is. *)
Theorem control_byte_URL_out_of_scope (c : Crawler) (base u : string) :
  allBytes (fun x => negb (Ascii.eqb x "#")) u = true ->
  NetURL.stringContainsCTLByte u = true ->
  NetURL.Parse u = None /\ isInScope c u = false /\ formatURL base u = u.
Proof.
  intros Hh Hc.
  assert (Hp : NetURL.Parse u = None).
  { unfold NetURL.Parse. rewrite (Cut_absent "#" u Hh).
    unfold NetURL.parse. rewrite Hc. reflexivity. }
  unfold isInScope, formatURL. rewrite Hp. auto.
Qed.

End Suffixes.

Lemma isInScope_deny_list_alone_witness :
  isInScope (NewCrawler [] ["evil.com"]) "http://a.com/" = true
  <-> ~ hostMatches "a.com" ["evil.com"].
Proof.
  apply (isInScope_deny_list_alone ["evil.com"] "http://a.com/"
           (NetURL.mkURL "http" "" None "a.com" "/" "" false false "" "" "")).
  vm_compute. reflexivity.
Defined.

Lemma isInScope_any_host_ending_with_entry_witness :
  isInScope (NewCrawler ["a.com"] []) "http://evila.com/" = true.
Proof.
  apply (isInScope_any_host_ending_with_entry (NewCrawler ["a.com"] []) "http://evila.com/"
           "evil" "a.com" (NetURL.mkURL "http" "" None "evila.com" "/" "" false false "" "" "")).
  - vm_compute. reflexivity.
  - reflexivity.
  - simpl. auto.
Defined.

Lemma control_byte_URL_out_of_scope_witness :
  NetURL.Parse ("http://a.com/x" +:+ nl) = None
  /\ isInScope (NewCrawler ["a.com"] []) ("http://a.com/x" +:+ nl) = false
  /\ formatURL "http://a.com/" ("http://a.com/x" +:+ nl) = "http://a.com/x" +:+ nl.
Proof.
  apply (control_byte_URL_out_of_scope (NewCrawler ["a.com"] []) "http://a.com/"
           ("http://a.com/x" +:+ nl)); vm_compute; reflexivity.
Defined.

(** ** Candidates that are URLs already *)

Section ValidURLs.

Import NetURL.

Lemma Cut_keeps_prefix (p rest : string) :
  allBytes (fun x => negb (Ascii.eqb x "#")) p = true ->
  exists a b f, Cut (p +:+ rest) "#" = (p +:+ a, b, f).
Proof.
  intros Hp. unfold Cut.
  destruct (Index rest "#") as [i|] eqn:Hi.
  - assert (Hidx : Index (p +:+ rest) "#" = Some (String.length p + i)%nat).
    { clear -Hp Hi. induction p as [|c p IH]; [exact Hi|].
      simpl in Hp. apply andb_true_iff in Hp. destruct Hp as [Hc Hp].
      apply negb_true_iff in Hc. cbn [String.append Index HasPrefix]. rewrite Hc.
      cbn [andb]. rewrite (IH Hp). reflexivity. }
    rewrite Hidx. eexists (sliceTo i rest), _, _. f_equal. f_equal.
    clear. induction p as [|c p IH]; simpl; [reflexivity | congruence].
  - assert (Hidx : Index (p +:+ rest) "#" = None).
    { clear -Hp Hi. induction p as [|c p IH]; [exact Hi|].
      simpl in Hp. apply andb_true_iff in Hp. destruct Hp as [Hc Hp].
      apply negb_true_iff in Hc. cbn [String.append Index HasPrefix]. rewrite Hc.
      cbn [andb]. rewrite (IH Hp). reflexivity. }
    rewrite Hidx. exists rest, EmptyString, false. reflexivity.
Qed.

Lemma parse_scheme (scheme0 rest0 raw : string) (url : URL) :
  String.eqb raw "*" = false ->
  getScheme raw = Some (scheme0, rest0) ->
  parse raw = Some url ->
  Scheme url = ToLower scheme0.
Proof.
  intros Hstar Hg. unfold parse. rewrite Hstar, Hg.
  destruct (stringContainsCTLByte raw); [discriminate|].
  destruct (splitQuery rest0) as [[rest fq] rq].
  intros Hp. apply parseHier_fields in Hp. tauto.
Qed.

Lemma Parse_http (rest : string) (u : URL) :
  Parse ("http://" +:+ rest) = Some u -> Scheme u = "http".
Proof.
  unfold Parse.
  destruct (Cut_keeps_prefix "http://" rest eq_refl) as (a & b & f & ->).
  destruct (parse ("http://" +:+ a)) as [url|] eqn:Hp; [|discriminate].
  assert (Hs : Scheme url = "http").
  { apply (parse_scheme "http" ("//" +:+ a) ("http://" +:+ a) url);
      [reflexivity | reflexivity | exact Hp]. }
  destruct (isEmpty b); [intros [= <-]; exact Hs|].
  intros Hf. apply setFragment_fields in Hf. destruct Hf as (-> & _). exact Hs.
Qed.

Lemma Parse_https (rest : string) (u : URL) :
  Parse ("https://" +:+ rest) = Some u -> Scheme u = "https".
Proof.
  unfold Parse.
  destruct (Cut_keeps_prefix "https://" rest eq_refl) as (a & b & f & ->).
  destruct (parse ("https://" +:+ a)) as [url|] eqn:Hp; [|discriminate].
  assert (Hs : Scheme url = "https").
  { apply (parse_scheme "https" ("//" +:+ a) ("https://" +:+ a) url);
      [reflexivity | reflexivity | exact Hp]. }
  destruct (isEmpty b); [intros [= <-]; exact Hs|].
  intros Hf. apply setFragment_fields in Hf. destruct Hf as (-> & _). exact Hs.
Qed.

(** X5: a candidate that starts with [http://] or [https://] is returned
    by [formatURL] as it is, whatever the base. *)
Theorem formatURL_valid_URL_unchanged (base href : string) :
  isValidURL href = true -> formatURL base href = href.
Proof.
  intros Hv. unfold formatURL.
  destruct (Parse href) as [u|] eqn:Hp; [|reflexivity].
  assert (Habs : IsAbs u = true).
  { unfold isValidURL, Regexp.MatchString in Hv. apply orb_true_iff in Hv.
    unfold IsAbs.
    destruct Hv as [Hv|Hv]; apply HasPrefix_iff in Hv; destruct Hv as [rest ->].
    - rewrite (Parse_http rest u Hp). reflexivity.
    - rewrite (Parse_https rest u Hp). reflexivity. }
  rewrite Habs. reflexivity.
Qed.

End ValidURLs.

Lemma formatURL_valid_URL_unchanged_witness :
  formatURL "http://a.com/x/" "https://b.org/../y z" = "https://b.org/../y z".
Proof. apply formatURL_valid_URL_unchanged. reflexivity. Defined.

(** ** The URLs found in a script *)

Section ScriptURLs.

Lemma run_bytes (s : string) : allBytes Regexp.urlByte (Regexp.run s) = true.
Proof.
  induction s as [|c s IH]; [reflexivity|]. simpl.
  destruct (Regexp.urlByte c) eqn:Hc; [|reflexivity]. simpl. rewrite Hc. exact IH.
Qed.

Lemma matchAt_shape (s m : string) :
  Regexp.matchAt s = Some m ->
  exists p r, m = p +:+ r /\ (p = "http://" \/ p = "https://")
              /\ r <> EmptyString /\ allBytes Regexp.urlByte r = true.
Proof.
  unfold Regexp.matchAt.
  destruct (HasPrefix s "https://").
  - destruct (Regexp.run (sliceFrom (String.length "https://") s)) as [|c r] eqn:Hr.
    + destruct (HasPrefix s "http://"); [|discriminate].
      destruct (Regexp.run (sliceFrom (String.length "http://") s)) as [|c r] eqn:Hr2;
        [discriminate|].
      intros [= <-]. exists "http://", (String c r).
      repeat split; auto; try discriminate. rewrite <- Hr2. apply run_bytes.
    + intros [= <-]. exists "https://", (String c r).
      repeat split; auto; try discriminate. rewrite <- Hr. apply run_bytes.
  - destruct (HasPrefix s "http://"); [|discriminate].
    destruct (Regexp.run (sliceFrom (String.length "http://") s)) as [|c r] eqn:Hr2;
      [discriminate|].
    intros [= <-]. exists "http://", (String c r).
    repeat split; auto; try discriminate. rewrite <- Hr2. apply run_bytes.
Qed.

Lemma findAllFrom_matches (skip : nat) (s m : string) :
  In m (Regexp.findAllFrom skip s) ->
  exists t, Regexp.matchAt t = Some m.
Proof.
  revert skip. induction s as [|c s IH]; intros skip; simpl; [contradiction|].
  destruct skip as [|k]; [|apply IH].
  destruct (Regexp.matchAt (String c s)) as [m'|] eqn:Hm.
  - intros [<-|Hin]; [eauto | eapply IH; eauto].
  - apply IH.
Qed.

(** X6: every URL that [extractURLsFromScript] finds in a body starts
    with [http://] or [https://], so that [isValidURL] accepts it, and
    goes on with at least one byte, none of them white space or a quote. *)
Theorem FindAllString_matches_are_valid_URLs (body m : string) :
  In m (Regexp.FindAllString body) ->
  isValidURL m = true
  /\ exists p r, m = p +:+ r /\ (p = "http://" \/ p = "https://")
                 /\ r <> EmptyString /\ allBytes Regexp.urlByte r = true.
Proof.
  intros Hin. apply findAllFrom_matches in Hin. destruct Hin as [t Ht].
  destruct (matchAt_shape t m Ht) as (p & r & -> & Hp & Hr & Hb).
  split; [|eauto 8].
  unfold isValidURL, Regexp.MatchString.
  destruct Hp as [-> | ->]; reflexivity.
Qed.

End ScriptURLs.

Lemma FindAllString_matches_are_valid_URLs_witness :
  isValidURL "http://a.com/next" = true
  /\ exists p r, "http://a.com/next" = p +:+ r /\ (p = "http://" \/ p = "https://")
                 /\ r <> EmptyString /\ allBytes Regexp.urlByte r = true.
Proof.
  apply (FindAllString_matches_are_valid_URLs Sample.script). vm_compute. auto.
Defined.

(** ** Code files *)

Section CodeFiles.

(** X7: [isCodeFile] looks at the end of the whole candidate, query and
    fragment included: it holds exactly when the text ends with one of the
    listed extensions. *)
Theorem isCodeFile_iff_ends_with_extension (u : string) :
  isCodeFile u = true <-> exists pre ext, In ext codeExtensions /\ u = pre +:+ ext.
Proof.
  unfold isCodeFile. rewrite existsb_exists. split.
  - intros (ext & Hin & Hs). apply HasSuffix_iff in Hs. destruct Hs as [pre ->]. eauto.
  - intros (pre & ext & Hin & ->). exists ext. split; [exact Hin | apply HasSuffix_append].
Qed.

End CodeFiles.

(** ** The walk of the tree *)

Section TreeWalk.

Context `{Environment}.

(** Induction on a tree: a node after its children. *)
Lemma Node_children_ind (P : Html.Node -> Prop) :
  (forall type data attr children,
      List.Forall P children -> P (Html.mkNode type data attr children)) ->
  forall n, P n.
Proof.
  intros Hnode. fix IH 1. intros [type data attr children].
  apply Hnode. induction children as [|child children IHc]; constructor.
  - apply IH.
  - exact IHc.
Qed.

Lemma elementLinks_length (base data : string) (attr : list Html.Attribute) :
  (List.length (elementLinks base data attr) <= List.length attr)%nat.
Proof.
  assert (Hc : forall keep value,
             (List.length (map (fun a : Html.Attribute => formatURL base (value a))
                             (List.filter keep attr)) <= List.length attr)%nat).
  { intros keep value. rewrite length_map. apply List.filter_length_le. }
  unfold elementLinks.
  repeat match goal with
         | |- context [if ?b then _ else _] => destruct b; [apply Hc|]
         end.
  simpl. lia.
Qed.

(** X8: [extractLinks] takes at most one candidate from each attribute: a
    tree never yields more candidates than it has attributes, and a tree
    without attributes yields none. *)
Theorem extractLinks_at_most_one_per_attribute (base : string) (n : Html.Node) :
  (List.length (extractLinks base n) <= attrCount n)%nat.
Proof.
  induction n as [type data attr children IH] using Node_children_ind.
  cbn [extractLinks attrCount]. rewrite length_app.
  assert (Hown : (List.length (if Html.isElement type then elementLinks base data attr else [])
                  <= List.length attr)%nat).
  { destruct (Html.isElement type); [apply elementLinks_length | simpl; lia]. }
  assert (Hbelow :
    (List.length ((fix ofChildren (l : list Html.Node) : list string :=
                     match l with
                     | [] => []
                     | child :: l' => extractLinks base child ++ ofChildren l'
                     end) children)
     <= (fix ofChildren (l : list Html.Node) : nat :=
           match l with
           | [] => 0
           | child :: l' => attrCount child + ofChildren l'
           end) children)%nat).
  { induction IH as [|child children Hchild _ IHc]; [simpl; lia|].
    rewrite length_app. lia. }
  lia.
Qed.

(** X9: what [extractLinks] of [url-scan.go] returns for a tree is among
    what [extractLinks] of the one-file variant returns for it, whatever
    the network answers: the variant only adds what it finds in scripts. *)
Theorem extractLinks_within_one_file_variant (base : string) (n : Html.Node) (w : World) :
  incl (extractLinks base n) (OneFile.extractLinks base n w).1.
Proof.
  revert w. induction n as [type data attr children IH] using Node_children_ind.
  intros w. cbn [extractLinks OneFile.extractLinks].
  set (own := if Html.isElement type then elementLinks base data attr else []).
  assert (Hbelow : forall w0,
    incl ((fix ofChildren (l : list Html.Node) : list string :=
             match l with
             | [] => []
             | child :: l' => extractLinks base child ++ ofChildren l'
             end) children)
         ((fix ofChildren (l : list Html.Node) (w : World) : list string * World :=
             match l with
             | [] => ([], w)
             | child :: l' =>
                 let '(a, w') := OneFile.extractLinks base child w in
                 let '(b, w'') := ofChildren l' w' in
                 (a ++ b, w'')
             end) children w0).1).
  { induction IH as [|child children Hchild _ IHc]; intros w0; [apply incl_refl|].
    specialize (Hchild w0).
    destruct (OneFile.extractLinks base child w0) as [a w'].
    specialize (IHc w').
    match goal with
    | |- context [let '(b, w'') := ?f children w' in _] =>
        destruct (f children w') as [b w'']
    end.
    simpl in *. apply incl_app_app; assumption. }
  specialize (Hbelow w).
  match goal with
  | |- context [let '(below, w1) := ?f children w in _] =>
      destruct (f children w) as [below w1]
  end.
  destruct (OneFile.scanScripts (own ++ below) w1) as [scripts w2].
  simpl in *. apply incl_appl. apply incl_app_app; [apply incl_refl | exact Hbelow].
Qed.

End TreeWalk.

(** ** What the parts of the coordinator change, and what they leave *)

Section Effects.

Context `{Environment}.

(** X10: [fetchURL] changes nothing of the crawl: the queue, the visited
    map, the wait group, the channels and the log of pages are as before;
    it only makes requests, each with the fixed user agent. *)
Theorem fetchURL_only_makes_requests (pageURL : string) (w : World) :
  cr (fetchURL pageURL w).2 = cr w
  /\ inScopeCh (fetchURL pageURL w).2 = inScopeCh w
  /\ outScopeCh (fetchURL pageURL w).2 = outScopeCh w
  /\ OutputCh (fetchURL pageURL w).2 = OutputCh w
  /\ pages (fetchURL pageURL w).2 = pages w
  /\ exists reqs, net (fetchURL pageURL w).2 = net w ++ reqs
                  /\ List.Forall (fun req => req_UserAgent req = userAgent) reqs.
Proof.
  destruct (fetchURL_frame pageURL w) as (Hc & Hi & Ho & Hu & Hp).
  repeat (split; [assumption|]).
  unfold fetchURL. rewrite NewRequest_Parse.
  destruct (NetURL.Parse pageURL) as [u|]; simpl.
  - destruct (fetchFailed (client_Do (net w) _)); simpl.
    + eexists [_; _]. rewrite <- app_assoc. split; [reflexivity|].
      repeat constructor.
    + eexists [_]. split; [reflexivity|]. repeat constructor.
  - exists []. rewrite app_nil_r. split; [reflexivity | constructor].
Qed.

Lemma emitScriptURLs_records (urls : list string) (w : World) :
  inScopeCh (emitScriptURLs urls w)
  = inScopeCh w ++ map (String.append "In-scope: ") (List.filter (isInScope (cr w)) urls)
  /\ outScopeCh (emitScriptURLs urls w)
     = outScopeCh w
       ++ map (String.append "Out-Of-Scope: ")
            (List.filter (fun u => negb (isInScope (cr w) u)) urls).
Proof.
  revert w. induction urls as [|u urls IH]; intros w.
  - simpl. rewrite !app_nil_r. auto.
  - cbn [emitScriptURLs List.filter].
    destruct (isInScope (cr w) u) eqn:Hs; cbn [negb].
    + destruct (IH (sendIn ("In-scope: " +:+ u) w)) as [Hi Ho].
      rewrite Hi, Ho. cbn [cr sendIn inScopeCh outScopeCh map].
      rewrite <- app_assoc. auto.
    + destruct (IH (sendOut ("Out-Of-Scope: " +:+ u) w)) as [Hi Ho].
      rewrite Hi, Ho. cbn [cr sendOut inScopeCh outScopeCh map].
      rewrite <- app_assoc. auto.
Qed.

(** X11: [extractURLsFromScript] of [url-scan.go] sends one record for
    each URL found in the body, in order and in the class that [isInScope]
    gives it, and does nothing else: the queue, the visited map and the
    wait group are as before; when the fetch fails or the body cannot be
    read, it sends nothing. *)
Theorem extractURLsFromScript_records (scriptURL : string) (w : World) :
  cr (extractURLsFromScript scriptURL w) = cr w
  /\ pages (extractURLsFromScript scriptURL w) = pages w
  /\ exists urls,
       urls = match (fetchURL scriptURL w).1 with
              | Resp (mkResponse status (Some body)) =>
                  if (status =? StatusOK)%Z then Regexp.FindAllString body else []
              | _ => []
              end
       /\ inScopeCh (extractURLsFromScript scriptURL w)
          = inScopeCh w ++ map (String.append "In-scope: ") (List.filter (isInScope (cr w)) urls)
       /\ outScopeCh (extractURLsFromScript scriptURL w)
          = outScopeCh w
            ++ map (String.append "Out-Of-Scope: ")
                 (List.filter (fun u => negb (isInScope (cr w) u)) urls).
Proof.
  destruct (extractURLsFromScript_frame scriptURL w) as (Hc & Hp & _ & _).
  split; [exact Hc|]. split; [exact Hp|].
  eexists. split; [reflexivity|].
  unfold extractURLsFromScript.
  destruct (fetchURL_frame scriptURL w) as (Hc1 & Hi1 & Ho1 & _ & _).
  destruct (fetchURL scriptURL w) as [r w1]. cbn [fst snd] in *.
  assert (Hnone : inScopeCh w1 = inScopeCh w ++ map (String.append "In-scope: ")
                                   (List.filter (isInScope (cr w)) [])
                  /\ outScopeCh w1 = outScopeCh w ++ map (String.append "Out-Of-Scope: ")
                                   (List.filter (fun u => negb (isInScope (cr w) u)) [])).
  { cbn [List.filter map]. rewrite !app_nil_r. auto. }
  destruct r as [|[status [body|]]]; cbn [fetchFailed StatusCode]; [exact Hnone| |].
  - destruct (status =? StatusOK)%Z; cbn [negb]; [|exact Hnone].
    destruct (emitScriptURLs_records (Regexp.FindAllString body) w1) as [Hi Ho].
    rewrite Hi, Ho, Hc1, Hi1, Ho1. auto.
  - destruct (status =? StatusOK)%Z; exact Hnone.
Qed.

Lemma extendedBy_In (prefix x : string) (l l' : list string) :
  extendedBy prefix l l' -> In x l -> In x l'.
Proof. intros [us ->] Hx. apply in_or_app. left. exact Hx. Qed.

Lemma processLink_record (u : string) (w : World) :
  isValidURL u = true ->
  (isInScope (cr w) u = true -> In ("In-scope: " +:+ u) (inScopeCh (processLink u w)))
  /\ (isInScope (cr w) u = false ->
      In ("Out-Of-Scope: " +:+ u) (outScopeCh (processLink u w))).
Proof.
  intros Hv. unfold processLink. rewrite Hv.
  destruct (isInScope (cr w) u) eqn:Hs; split; try discriminate; intros _.
  - set (w1 := wgAdd 1 _).
    assert (H1 : In ("In-scope: " +:+ u) (inScopeCh w1))
      by (subst w1; cbn [wgAdd enqueue sendIn inScopeCh]; apply in_or_app; right; left; reflexivity).
    destruct (isCodeFile u); [|exact H1].
    destruct (extractURLsFromScript_frame u w1) as (_ & _ & Hi & _).
    eapply extendedBy_In; eassumption.
  - set (w1 := sendOut _ w).
    assert (H1 : In ("Out-Of-Scope: " +:+ u) (outScopeCh w1))
      by (subst w1; cbn [sendOut outScopeCh]; apply in_or_app; right; left; reflexivity).
    destruct (isCodeFile u); [|exact H1].
    destruct (extractURLsFromScript_frame u w1) as (_ & _ & _ & Ho).
    eapply extendedBy_In; eassumption.
Qed.

Lemma processLinks_records (urls : list string) (w : World) (u : string) :
  In u urls ->
  isValidURL u = true ->
  (isInScope (cr w) u = true -> In ("In-scope: " +:+ u) (inScopeCh (processLinks urls w)))
  /\ (isInScope (cr w) u = false ->
      In ("Out-Of-Scope: " +:+ u) (outScopeCh (processLinks urls w))).
Proof.
  revert w. induction urls as [|u0 urls IH]; intros w Hin Hv; [contradiction|].
  change (processLinks (u0 :: urls) w) with (processLinks urls (processLink u0 w)).
  destruct (processLink_frame u0 w) as (_ & _ & I & O & _).
  assert (Hs : isInScope (cr (processLink u0 w)) u = isInScope (cr w) u)
    by (apply isInScope_ext; assumption).
  destruct (processLinks_frame urls (processLink u0 w)) as (_ & _ & _ & _ & _ & Ri & Ro).
  destruct Hin as [->|Hin].
  - destruct (processLink_record u w Hv) as [Hi Ho].
    split; intros Hc; eapply extendedBy_In; eauto.
  - destruct (IH (processLink u0 w) Hin Hv) as [Hi Ho]. rewrite Hs in Hi, Ho. auto.
Qed.


Lemma processURL_visited_after (pageURL v : string) (w : World) :
  visited (cr (processURL pageURL w)) v = String.eqb pageURL v || visited (cr w) v.
Proof.
  destruct (processURL_frame pageURL w) as (V & _).
  unfold visited in *. rewrite V.
  destruct (default false (Visited (cr w) !! pageURL)) eqn:Hv.
  - destruct (String.eqb_spec pageURL v) as [<-|_]; [rewrite Hv|]; reflexivity.
  - apply visited_insert.
Qed.

(** X13: [processURL] marks its own page and no other: a URL is visited
    afterwards exactly when it is the page or was visited before; nothing
    is ever removed from the visited map, and the scope lists are never
    changed. *)
Theorem processURL_marks_only_its_page (pageURL : string) (w : World) :
  (forall v, visited (cr (processURL pageURL w)) v = true
             <-> v = pageURL \/ visited (cr w) v = true)
  /\ InScope (cr (processURL pageURL w)) = InScope (cr w)
  /\ OutScope (cr (processURL pageURL w)) = OutScope (cr w).
Proof.
  destruct (processURL_frame pageURL w) as (_ & I & O & _).
  split; [|auto]. intros v. rewrite processURL_visited_after, orb_true_iff, String.eqb_eq.
  intuition congruence.
Qed.

Lemma processLink_balance (u : string) (w : World) : balance (processLink u w) = balance w.
Proof.
  unfold processLink.
  set (w1 := if isValidURL u then _ else _).
  assert (H1 : balance w1 = balance w).
  { subst w1. destruct (isValidURL u); [|reflexivity].
    destruct (isInScope (cr w) u); [|reflexivity].
    unfold balance. cbn [wgAdd enqueue sendIn cr WG Queue]. rewrite length_app. simpl. lia. }
  destruct (isCodeFile u); [|exact H1].
  destruct (extractURLsFromScript_frame u w1) as (Hc & _).
  unfold balance in *. rewrite Hc. exact H1.
Qed.

Lemma processLinks_balance (urls : list string) (w : World) :
  balance (processLinks urls w) = balance w.
Proof.
  unfold processLinks. revert w. induction urls as [|u urls IH]; intros w; [reflexivity|].
  cbn [fold_left]. rewrite IH. apply processLink_balance.
Qed.

Lemma processURL_balance (pageURL : string) (w : World) :
  balance (processURL pageURL w) = balance w.
Proof.
  unfold processURL. destruct (visited (cr w) pageURL); [reflexivity|].
  destruct (fetchURL_frame pageURL (logPage pageURL (setVisited pageURL w))) as (Hc & _).
  destruct (fetchURL pageURL _) as [r w2]. cbn [snd] in Hc.
  assert (H2 : balance w2 = balance w) by (unfold balance; rewrite Hc; reflexivity).
  destruct (fetchFailed r); [exact H2|].
  destruct r as [|[status [body|]]]; try exact H2.
  destruct (html_Parse body) as [doc|]; [|exact H2].
  rewrite processLinks_balance. exact H2.
Qed.

Lemma worker_balance (fuel : nat) (w : World) : balance (worker fuel w) = balance w.
Proof.
  revert w. induction fuel as [|fuel IH]; intros w; [reflexivity|].
  cbn [worker]. destruct (Queue (cr w)) as [|url q] eqn:Hq; [reflexivity|].
  rewrite IH.
  assert (Hd : forall x, balance (wgAdd (-1) x) = (balance x - 1)%Z)
    by (intros x; unfold balance; cbn [wgAdd cr WG Queue]; lia).
  rewrite Hd, processURL_balance.
  unfold balance. cbn [setQueue cr WG Queue]. rewrite Hq. cbn [List.length]. lia.
Qed.

(** X14: the wait group counts the queue: whenever the worker is between
    two items of a crawl, the counter of [c.WG] is the number of URLs in
    the queue, so that it is zero exactly when the queue is empty. *)
Theorem wait_group_counts_queue (inscope outscope : list string) (startURL : string)
    (fuel : nat) :
  WG (cr (worker fuel (wgAdd 1 (enqueue startURL
            (mkWorld (NewCrawler inscope outscope) [] [] [] [] [])))))
  = Z.of_nat (List.length (Queue (cr (worker fuel (wgAdd 1 (enqueue startURL
            (mkWorld (NewCrawler inscope outscope) [] [] [] [] []))))))).
Proof.
  pose proof (worker_balance fuel (wgAdd 1 (enqueue startURL
            (mkWorld (NewCrawler inscope outscope) [] [] [] [] [])))) as Hb.
  unfold balance in Hb at 2. cbn in Hb. unfold balance in Hb. lia.
Qed.

End Effects.

(** ** A crawl with one worker *)

Section OneWorker.

Context `{Environment}.

(** What [processURL] adds to the queue was recorded as in scope. *)
Lemma processURL_added (pageURL : string) (w : World) :
  exists added,
    Queue (cr (processURL pageURL w)) = Queue (cr w) ++ added
    /\ forall u, In u added ->
         isValidURL u = true /\ isInScope (cr w) u = true
         /\ In ("In-scope: " +:+ u) (inScopeCh (processURL pageURL w)).
Proof.
  assert (Hnone : forall w', Queue (cr w') = Queue (cr w) ->
            exists added, Queue (cr w') = Queue (cr w) ++ added
              /\ forall u, In u added ->
                   isValidURL u = true /\ isInScope (cr w) u = true
                   /\ In ("In-scope: " +:+ u) (inScopeCh w')).
  { intros w' Hq. exists []. rewrite app_nil_r. split; [exact Hq | contradiction]. }
  unfold processURL. destruct (visited (cr w) pageURL); [apply Hnone; reflexivity|].
  destruct (fetchURL_frame pageURL (logPage pageURL (setVisited pageURL w))) as (Hc & _).
  destruct (fetchURL pageURL _) as [r w2]. cbn [snd] in Hc.
  assert (Hq2 : Queue (cr w2) = Queue (cr w)) by (rewrite Hc; reflexivity).
  destruct (fetchFailed r); [apply Hnone; exact Hq2|].
  destruct r as [|[status [body|]]]; try (apply Hnone; exact Hq2).
  destruct (html_Parse body) as [doc|]; [|apply Hnone; exact Hq2].
  set (urls := extractLinks pageURL doc).
  destruct (processLinks_frame urls w2) as (Q & _).
  exists (queued (cr w2) urls). rewrite Q, Hq2. split; [reflexivity|].
  intros u Hu. unfold queued in Hu. apply filter_In in Hu. destruct Hu as [Hin Hok].
  apply andb_true_iff in Hok. destruct Hok as [Hv Hs].
  split; [exact Hv|]. split.
  - rewrite <- Hs. apply isInScope_ext; rewrite Hc; reflexivity.
  - apply (processLinks_records urls w2 u Hin Hv). exact Hs.
Qed.

Lemma processURL_invariant (c0 : Crawler) (startURL url : string) (q : list string) (w : World) :
  crawlInvariant c0 startURL w ->
  Queue (cr w) = url :: q ->
  crawlInvariant c0 startURL (wgAdd (-1) (processURL url (setQueue q w))).
Proof.
  intros (I0 & O0 & Hnd & Hvis & Hgood) Hq.
  set (w1 := setQueue q w).
  destruct (processURL_frame url w1) as (_ & I & O & P & Ri & _).
  pose proof (processURL_visited_after url) as V.
  destruct (processURL_added url w1) as (added & Q & Hadded).
  assert (Hscope : forall u, isInScope (cr w1) u = isInScope c0 u)
    by (intros u; apply isInScope_ext; assumption).
  assert (Hurl : url = startURL
                 \/ isValidURL url = true /\ isInScope c0 url = true
                    /\ In ("In-scope: " +:+ url) (inScopeCh w)).
  { apply Hgood. left. rewrite Hq. left. reflexivity. }
  unfold crawlInvariant.
  change (cr (wgAdd (-1) (processURL url w1)))
    with (mkCrawler (Queue (cr (processURL url w1))) (Visited (cr (processURL url w1)))
            (WG (cr (processURL url w1)) + -1) (InScope (cr (processURL url w1)))
            (OutScope (cr (processURL url w1)))).
  change (pages (wgAdd (-1) (processURL url w1))) with (pages (processURL url w1)).
  change (inScopeCh (wgAdd (-1) (processURL url w1))) with (inScopeCh (processURL url w1)).
  cbn [InScope OutScope Queue].
  assert (Hkeep : forall x, In x (inScopeCh w) -> In x (inScopeCh (processURL url w1))).
  { intros x Hx. eapply extendedBy_In; [exact Ri | exact Hx]. }
  split; [rewrite I; exact I0|]. split; [rewrite O; exact O0|].
  rewrite P. change (pages w1) with (pages w).
  split; [|split].
  - destruct (visited (cr w1) url) eqn:Hv; [rewrite app_nil_r; exact Hnd|].
    apply NoDup_app. split; [exact Hnd|]. split; [|apply NoDup_singleton].
    intros x Hx Hx'. apply list_elem_of_singleton in Hx'. subst x.
    apply list_elem_of_In in Hx. specialize (Hvis url Hx).
    change (visited (cr w1) url) with (visited (cr w) url) in Hv. congruence.
  - intros u Hu.
    change (visited (mkCrawler (Queue (cr (processURL url w1)))
                       (Visited (cr (processURL url w1)))
                       (WG (cr (processURL url w1)) + -1)
                       (InScope (cr (processURL url w1)))
                       (OutScope (cr (processURL url w1)))) u)
      with (visited (cr (processURL url w1)) u).
    rewrite V. apply in_app_or in Hu. destruct Hu as [Hu|Hu].
    + change (visited (cr w1) u) with (visited (cr w) u). rewrite (Hvis u Hu).
      apply orb_true_r.
    + destruct (visited (cr w1) url); [contradiction|].
      destruct Hu as [<-|[]]. rewrite String.eqb_refl. reflexivity.
  - intros u Hu.
    assert (Hold : u = startURL
                   \/ isValidURL u = true /\ isInScope c0 u = true
                      /\ In ("In-scope: " +:+ u) (inScopeCh w) ->
                   u = startURL
                   \/ isValidURL u = true /\ isInScope c0 u = true
                      /\ In ("In-scope: " +:+ u) (inScopeCh (processURL url w1))).
    { intros [->|(Hv & Hs & Hr)]; [left; reflexivity | right; auto]. }
    destruct Hu as [Hu|Hu].
    + rewrite Q in Hu. apply in_app_or in Hu. destruct Hu as [Hu|Hu].
      * apply Hold. apply Hgood. left. rewrite Hq. right. exact Hu.
      * destruct (Hadded u Hu) as (Hv & Hs & Hr). right. rewrite Hscope in Hs. auto.
    + apply in_app_or in Hu. destruct Hu as [Hu|Hu].
      * apply Hold. apply Hgood. right. exact Hu.
      * destruct (visited (cr w1) url); [contradiction|].
        destruct Hu as [<-|[]]. apply Hold. exact Hurl.
Qed.

Lemma worker_invariant (c0 : Crawler) (startURL : string) (fuel : nat) (w : World) :
  crawlInvariant c0 startURL w -> crawlInvariant c0 startURL (worker fuel w).
Proof.
  revert w. induction fuel as [|fuel IH]; intros w Hw; [exact Hw|].
  cbn [worker]. destruct (Queue (cr w)) as [|url q] eqn:Hq; [exact Hw|].
  apply IH. apply processURL_invariant; assumption.
Qed.

Lemma crawlInvariant_start (inscope outscope : list string) (startURL : string) :
  crawlInvariant (NewCrawler inscope outscope) startURL
    (wgAdd 1 (enqueue startURL (mkWorld (NewCrawler inscope outscope) [] [] [] [] []))).
Proof.
  unfold crawlInvariant.
  cbn [cr wgAdd enqueue InScope OutScope Queue pages inScopeCh NewCrawler app].
  split; [reflexivity|]. split; [reflexivity|]. split; [constructor|].
  split; [intros x []|].
  intros x [[<-|[]]|[]]. left. reflexivity.
Qed.

(** X15: a crawl with one worker fetches no page twice: the URLs for
    which [processURL] went on to the fetch are all different. *)
Theorem Crawl_fetches_each_page_once (inscope outscope : list string)
    (startURL outputFile : string) (fuel : nat) (fs fs' : gmap string string) (w : World) :
  Crawl (NewCrawler inscope outscope) startURL outputFile fuel fs = Some (w, fs') ->
  NoDup (pages w).
Proof.
  unfold Crawl. destruct (writeToFiles _ _ _ _ fs); [|discriminate].
  intros [= <- _].
  apply (worker_invariant (NewCrawler inscope outscope) startURL fuel _
           (crawlInvariant_start inscope outscope startURL)).
Qed.

(** X16: a crawl never fetches as a page a URL that is out of scope: each
    page fetched is the start URL or a URL that [isValidURL] and
    [isInScope] accept and whose record was sent on the in-scope channel. *)
Theorem Crawl_pages_are_start_or_in_scope (inscope outscope : list string)
    (startURL outputFile : string) (fuel : nat) (fs fs' : gmap string string) (w : World)
    (u : string) :
  Crawl (NewCrawler inscope outscope) startURL outputFile fuel fs = Some (w, fs') ->
  In u (pages w) ->
  u = startURL
  \/ (isValidURL u = true
      /\ isInScope (NewCrawler inscope outscope) u = true
      /\ In ("In-scope: " +:+ u) (inScopeCh w)).
Proof.
  unfold Crawl. destruct (writeToFiles _ _ _ _ fs); [|discriminate].
  intros [= <- _] Hu.
  destruct (worker_invariant (NewCrawler inscope outscope) startURL fuel _
              (crawlInvariant_start inscope outscope startURL)) as (_ & _ & _ & _ & Hgood).
  apply Hgood. right. exact Hu.
Qed.

End OneWorker.

Lemma Crawl_fetches_each_page_once_witness :
  exists w fs', @Crawl Sample.env (NewCrawler ["a.com"] []) "http://a.com/" "out" 10 ∅
                = Some (w, fs') /\ NoDup (pages w).
Proof.
  destruct (@Crawl Sample.env (NewCrawler ["a.com"] []) "http://a.com/" "out" 10 ∅)
    as [[w fs']|] eqn:Hc; [|vm_compute in Hc; discriminate].
  exists w, fs'. split; [reflexivity|].
  exact (@Crawl_fetches_each_page_once Sample.env _ _ _ _ _ _ _ _ Hc).
Defined.

Lemma Crawl_pages_are_start_or_in_scope_witness :
  "http://a.com/b" = "http://a.com/"
  \/ (isValidURL "http://a.com/b" = true
      /\ isInScope (NewCrawler ["a.com"] []) "http://a.com/b" = true
      /\ In ("In-scope: " +:+ "http://a.com/b")
           (inScopeCh (@worker Sample.env 10
              (wgAdd 1 (enqueue "http://a.com/"
                 (mkWorld (NewCrawler ["a.com"] []) [] [] [] [] [])))))).
Proof.
  assert (Hc : exists fs',
    @Crawl Sample.env (NewCrawler ["a.com"] []) "http://a.com/" "out" 10 ∅
    = Some (@worker Sample.env 10
              (wgAdd 1 (enqueue "http://a.com/"
                 (mkWorld (NewCrawler ["a.com"] []) [] [] [] [] []))), fs')).
  { unfold Crawl. destruct (writeToFiles _ _ _ _ ∅) as [fs'|] eqn:Hw;
      [eexists; reflexivity | vm_compute in Hw; discriminate]. }
  destruct Hc as [fs' Hc].
  apply (@Crawl_pages_are_start_or_in_scope Sample.env _ _ _ _ _ _ _ _ _ Hc).
  vm_compute. auto.
Defined.


(** ** The writers and the disk *)

Section Disk.

Context `{Environment}.

Lemma WriteString_is_Some (path data p : string) (fs : gmap string string) :
  is_Some (fs !! p) -> is_Some (WriteString path data fs !! p).
Proof.
  intros Hp. unfold WriteString. destruct (fs !! path) as [content|] eqn:Hc; [|exact Hp].
  destruct (decide (p = path)) as [->|Hne].
  - rewrite lookup_insert_eq. eauto.
  - rewrite lookup_insert_ne by congruence. exact Hp.
Qed.

Lemma writerLoop_is_Some (path p : string) (l : list string) (fs : gmap string string) :
  is_Some (fs !! p) -> is_Some (writerLoop path l fs !! p).
Proof.
  unfold writerLoop. revert fs. induction l as [|r l IH]; intros fs Hp; [exact Hp|].
  cbn [fold_left]. apply IH. apply WriteString_is_Some. exact Hp.
Qed.

(** X17: whatever the writes do, [writeToFiles] stops ([log.Fatalf])
    exactly when one of the two files cannot be created, and otherwise
    leaves both files on the disk and no other path changed. *)
Theorem writeToFiles_touches_only_its_files (inScopeFile outScopeFile : string)
    (ins outs : list string) (fs : gmap string string) :
  (writeToFiles inScopeFile outScopeFile ins outs fs = None
   <-> os_Create inScopeFile = false \/ os_Create outScopeFile = false)
  /\ forall fs', writeToFiles inScopeFile outScopeFile ins outs fs = Some fs' ->
       is_Some (fs' !! inScopeFile) /\ is_Some (fs' !! outScopeFile)
       /\ forall p, p <> inScopeFile -> p <> outScopeFile -> fs' !! p = fs !! p.
Proof.
  unfold writeToFiles.
  destruct (os_Create inScopeFile); cbn [negb].
  2: { split; [split; auto | discriminate]. }
  destruct (os_Create outScopeFile); cbn [negb].
  2: { split; [split; auto | discriminate]. }
  split; [split; [discriminate | intros [?|?]; discriminate]|].
  intros fs' [= <-].
  set (fs2 := <[outScopeFile := EmptyString]> (<[inScopeFile := EmptyString]> fs)).
  assert (Hin : is_Some (fs2 !! inScopeFile)).
  { subst fs2. destruct (decide (inScopeFile = outScopeFile)) as [->|Hne].
    - rewrite lookup_insert_eq. eauto.
    - rewrite lookup_insert_ne by congruence. rewrite lookup_insert_eq. eauto. }
  assert (Hout : is_Some (fs2 !! outScopeFile))
    by (subst fs2; rewrite lookup_insert_eq; eauto).
  split; [|split].
  - repeat first [apply writerLoop_is_Some | apply WriteString_is_Some]. exact Hin.
  - repeat first [apply writerLoop_is_Some | apply WriteString_is_Some]. exact Hout.
  - intros p Hpi Hpo.
    rewrite !writerLoop_lookup_ne, !WriteString_lookup_ne by assumption.
    subst fs2. rewrite !lookup_insert_ne by congruence. reflexivity.
Qed.

End Disk.

Section OneFileDisk.

Context `{Environment}.

Hypothesis writes_succeed :
  forall path content data, os_Write path content data = String.length data.

(** X18: the one-file [writeToFile] loses the out-of-scope records: when
    the file can be created and the writes succeed, the file holds the
    first header, a line for each value received that starts with
    [In-scope], and the second header with nothing after it. *)
Theorem OneFile_writeToFile_keeps_in_scope_only (outputFile : string)
    (received : list string) (fs : gmap string string) :
  os_Create outputFile = true ->
  exists fs',
    OneFile.writeToFile outputFile received fs = Some fs'
    /\ fs' !! outputFile
       = Some (("--IN SCOPE URLS:---" +:+ nl)
               +:+ lines (List.filter (fun u => HasPrefix u "In-scope") received)
               +:+ ("--OUT OF SCOPE URLS:---" +:+ nl))
    /\ forall u, HasPrefix ("Out-Of-Scope: " +:+ u) "In-scope" = false.
Proof.
  intros Hc. unfold OneFile.writeToFile. rewrite Hc. cbn [negb].
  eexists. split; [reflexivity|]. split; [|intros u; reflexivity].
  rewrite (WriteString_lookup writes_succeed _ _
             (("--IN SCOPE URLS:---" +:+ nl)
              +:+ lines (List.filter (fun u => HasPrefix u "In-scope") received))).
  - rewrite append_assoc. reflexivity.
  - apply (writerLoop_lookup writes_succeed).
    rewrite (WriteString_lookup writes_succeed _ _ EmptyString); [reflexivity|].
    apply lookup_insert_eq.
Qed.

End OneFileDisk.

Lemma OneFile_writeToFile_keeps_in_scope_only_witness :
  exists fs',
    @OneFile.writeToFile Sample.env "out"
      ["In-scope: http://a.com/b"; "Out-Of-Scope: http://evil.com/x"] ∅ = Some fs'
    /\ fs' !! "out"
       = Some (("--IN SCOPE URLS:---" +:+ nl)
               +:+ lines (List.filter (fun u => HasPrefix u "In-scope")
                            ["In-scope: http://a.com/b"; "Out-Of-Scope: http://evil.com/x"])
               +:+ ("--OUT OF SCOPE URLS:---" +:+ nl)).
Proof.
  destruct (@OneFile_writeToFile_keeps_in_scope_only Sample.env (fun _ _ _ => eq_refl)
              "out" ["In-scope: http://a.com/b"; "Out-Of-Scope: http://evil.com/x"] ∅ eq_refl)
    as (fs' & Hw & Hc & _).
  exists fs'. auto.
Defined.

(** ** The one-file coordinator *)

Section OneFileRecords.


End OneFileRecords.

(** ** More on the mutex *)

Section MutexHeld.

Import Interleaving.

Lemma holder_step (s s' : state) :
  step s s' ->
  (Mutex s = true ->
   exists i ti, invocations s !! i = Some ti /\ inCritical (at_ ti) = true) ->
  Mutex s' = true ->
  exists i ti, invocations s' !! i = Some ti /\ inCritical (at_ ti) = true.
Proof.
  intros Hstep Hold.
  assert (Hmove : forall (ts : list invocation) i u p p',
            ts !! i = Some (mkInv u p) -> inCritical p' = true ->
            exists j tj, <[i := mkInv u p']> ts !! j = Some tj /\ inCritical (at_ tj) = true).
  { intros ts i u p p' Hi Hp. exists i, (mkInv u p').
    rewrite list_lookup_insert_eq by (eapply lookup_lt_Some; eauto). auto. }
  assert (Hstay : forall (ts : list invocation) i u p p',
            ts !! i = Some (mkInv u p) -> inCritical p = false ->
            (exists j tj, ts !! j = Some tj /\ inCritical (at_ tj) = true) ->
            exists j tj, <[i := mkInv u p']> ts !! j = Some tj /\ inCritical (at_ tj) = true).
  { intros ts i u p p' Hi Hp (j & tj & Hj & Hc).
    destruct (lookup_kept ts i j u p p' tj Hi Hj) as [(Hne & Hj') | (-> & -> & _)].
    - eauto.
    - simpl in Hc. congruence. }
  destruct Hstep; cbn [Mutex invocations] in *; intros Hm; try discriminate.
  - destruct (Hold Hm) as (i & ti & Hi & Hc). exists i, ti.
    split; [apply lookup_app_l_Some; exact Hi | exact Hc].
  - eapply Hmove; eauto.
  - eapply Hmove; eauto.
  - eapply Hmove; eauto.
  - eapply Hmove; eauto.
  - eapply Hstay; eauto.
  - eapply Hstay; eauto.
Qed.

(** X20: the mutex is never left locked: in every state of every
    execution it is set exactly when one invocation of [processURL] is
    between its [Lock] and its [Unlock]. *)
Theorem mutex_held_only_in_critical_section (s : state) :
  reachable s ->
  Mutex s = true
  <-> exists i ti, invocations s !! i = Some ti /\ inCritical (at_ ti) = true.
Proof.
  intros Hr. split.
  - induction Hr as [|s s' Hr IH Hstep]; [discriminate|].
    eapply holder_step; eassumption.
  - intros (i & ti & Hi & Hc).
    exact (inv_locked s (invariant_reachable s Hr) i ti Hi Hc).
Qed.

(** X21: in every state of every execution, a URL whose page was fetched
    is in the visited map. *)
Theorem fetched_pages_are_visited (s : state) (u : string) :
  reachable s ->
  In u (fetched s) ->
  default false (Interleaving.Visited s !! u) = true.
Proof.
  intros Hr Hu. pose proof (invariant_reachable s Hr) as Hinv.
  destruct (inv_fetched s Hinv u Hu) as (i & ti & Hi & <- & Hf).
  apply (inv_claimed_visited s Hinv i ti Hi). apply reachedFetch_claimed. exact Hf.
Qed.

Lemma one_fetch_reachable :
  reachable (mkState [mkInv "http://a.com/" AtRest] false
               (<["http://a.com/" := true]> ∅) ["http://a.com/"]).
Proof.
  pose (u := "http://a.com/").
  eapply reach_step;
    [|apply (step_fetch [mkInv u AtFetch] false (<[u := true]> ∅) [] 0 u eq_refl)].
  eapply reach_step;
    [|apply (step_unlock [mkInv u AtUnlock] true (<[u := true]> ∅) [] 0 u eq_refl)].
  eapply reach_step; [|apply (step_set [mkInv u AtSet] true ∅ [] 0 u eq_refl)].
  eapply reach_step;
    [|apply (step_check_new [mkInv u AtCheck] true ∅ [] 0 u eq_refl); reflexivity].
  eapply reach_step; [|apply (step_lock [mkInv u AtLock] ∅ [] 0 u eq_refl)].
  eapply reach_step; [|apply (step_call [] false ∅ [] u)].
  apply reach_init.
Defined.

End MutexHeld.

Lemma mutex_held_only_in_critical_section_witness :
  false = true
  <-> exists i ti,
        [Interleaving.mkInv "http://a.com/" Interleaving.AtRest] !! i = Some ti
        /\ Interleaving.inCritical (Interleaving.at_ ti) = true.
Proof. exact (mutex_held_only_in_critical_section _ one_fetch_reachable). Defined.

Lemma fetched_pages_are_visited_witness :
  default false ((<["http://a.com/" := true]> ∅ : gmap string bool) !! "http://a.com/") = true.
Proof.
  apply (fetched_pages_are_visited _ "http://a.com/" one_fetch_reachable).
  left. reflexivity.
Defined.
